(** * advanced-vector: a shallow embedding of [vector.h]

    The header defines two class templates, [RawMemory<T>] (an owning handle
    to a block of raw storage) and [Vector<T>] (the container built on it).

    Modelling choices, all taken from the header:
    - a block of raw storage is a list of slots, each either raw
      (no object) or holding a live object; [buffer_ = nullptr] is the
      empty list.  A [RawMemory] is never copied (its copy operations are
      deleted), so a handle carries the contents of the block it owns;
    - [size_t] quantities are [nat]; [size_t] is taken to be 64 bits wide,
      and the byte count [n * sizeof(T)] of [Allocate] wraps as it does
      there.  (The growth [size_ * 2] is the product in [nat]: where it
      exceeds [size_t], so does the byte count, which is reduced all the
      same.)  [operator new] is taken to succeed, with a block of the byte
      count it is asked for;
    - iterators are indices into the vector's own buffer; [Emplace] and
      [Erase] keep [pos - begin()] in a 32-bit [int], as the header does.
      An address outside the block is an error where the object at it is
      accessed;
    - the element type [T] is an interface: its type traits (the operands of
      the [if constexpr] tests), its value-initialised value, which values
      make its copy and move constructors throw, and the state a moved-from
      object is left in.  The default constructor, the assignment operators
      and the destructor of [T] are taken not to throw;
    - the two-object operations ([operator=], [Swap]) are modelled for two
      distinct objects; on self-assignment the header does nothing;
    - a method ends by returning, by letting an exception escape, by
      [std::terminate] (an exception leaving a [noexcept] function), or its
      behaviour is undefined (a precondition of the language or of the
      class is broken: a read of a raw slot, a destructor call on a raw
      slot, an access outside the block, an iterator outside the vector). *)

From stdpp Require Import list.

(** ** The element type *)

(** What a [catch (const std::exception&)] handler can tell apart. *)
Inductive exn := StdException | OtherException.

Class Element (T : Type) := {
  (** [sizeof(T)] *)
  sizeof_T : positive;
  is_nothrow_move_constructible : bool;
  is_copy_constructible : bool;
  is_nothrow_copy_constructible : bool;
  (** [T()] *)
  value_init : T;
  (** [T(const T&)] throws when the source has this value *)
  copy_throws : T → option exn;
  (** [T(T&&)] throws when the source has this value *)
  move_throws : T → option exn;
  (** the value left in an object that was moved from *)
  moved_from : T → T
}.

(** The traits tell the truth about the constructors. *)
Definition traits_sound {T} `{Element T} : Prop :=
  (is_nothrow_move_constructible = true → ∀ x, move_throws x = None) ∧
  (is_nothrow_copy_constructible = true → ∀ x, copy_throws x = None) ∧
  (is_nothrow_copy_constructible = true → is_copy_constructible = true).

(** The forwarded constructor arguments [Args&&... args] of [EmplaceBack]
    and [Emplace]. *)
Inductive Args (T : Type) :=
| ByConstRef (value : T)   (* [const T&]: the copy constructor runs *)
| ByRvalue (value : T)     (* [T&&]: the move constructor runs *)
| ByCtor (r : exn + T).    (* any other constructor, with what it does *)
Arguments ByConstRef {T} value.
Arguments ByRvalue {T} value.
Arguments ByCtor {T} r.

(** ** Raw storage *)

Inductive slot (T : Type) := Raw | Live (x : T).
Arguments Raw {T}.
Arguments Live {T} x.

Record RawMemory (T : Type) := {
  buffer_ : list (slot T);
  capacity_ : nat
}.
Arguments buffer_ {T} r.
Arguments capacity_ {T} r.

Record Vector (T : Type) := {
  data_ : RawMemory T;
  size_ : nat
}.
Arguments data_ {T} v.
Arguments size_ {T} v.

(** How a block-level algorithm ends; on an exception the memory it was
    working on is still there, in the state [a]. *)
Inductive res (A : Type) :=
| Done (a : A)
| Raised (e : exn) (a : A)
| Fault.
Arguments Done {A} a.
Arguments Raised {A} e a.
Arguments Fault {A}.

(** How a method ends. *)
Inductive outcome (R S : Type) :=
| Ok (r : R) (s : S)
| Throw (e : exn) (s : S)
| Terminate
| Undefined.
Arguments Ok {R S} r s.
Arguments Throw {R S} e s.
Arguments Terminate {R S}.
Arguments Undefined {R S}.

(** The state a method of one vector leaves behind: the vector itself and
    the objects that were still alive in a block released by [~RawMemory]
    (which calls no destructor). *)
Record post (T : Type) := {
  self : Vector T;
  leaked : list T
}.
Arguments self {T} p.
Arguments leaked {T} p.

Section Code.
Context {T : Type} `{Element T}.

Definition live_object (s : slot T) : option T :=
  match s with Live x => Some x | Raw => None end.

(** *** class RawMemory *)

(** [n * sizeof(T)], computed in [size_t]. *)
Definition byte_count (n : nat) : N :=
  ((N.of_nat n * Npos sizeof_T) mod 2 ^ 64)%N.

(** [static T* Allocate(size_t n)]: [operator new(n * sizeof(T))], or
    [nullptr] for [n = 0].  The block has the slots its bytes make up. *)
Definition Allocate (n : nat) : list (slot T) :=
  replicate (N.to_nat (byte_count n / Npos sizeof_T)) Raw.

(** [n * sizeof(T)] does not overflow [size_t]. *)
Definition allocatable (n : nat) : Prop :=
  (N.of_nat n * Npos sizeof_T < 2 ^ 64)%N.

(** [~RawMemory]: [Deallocate(buffer_)]; the objects still alive in the
    block are gone without a destructor call. *)
Definition Deallocate (buf : list (slot T)) : list T := omap live_object buf.

Definition RawMemory_default : RawMemory T :=
  {| buffer_ := []; capacity_ := 0 |}.

Definition RawMemory_new (capacity : nat) : RawMemory T :=
  {| buffer_ := Allocate capacity; capacity_ := capacity |}.

Definition RawMemory_Swap (this other : RawMemory T) : RawMemory T * RawMemory T :=
  ({| buffer_ := buffer_ other; capacity_ := capacity_ other |},
   {| buffer_ := buffer_ this; capacity_ := capacity_ this |}).

(** [RawMemory(RawMemory&& other)]: the members start as [nullptr] and [0]
    and are swapped with [other]'s.  Returns the new handle and [other]. *)
Definition RawMemory_move_ctor (other : RawMemory T) : RawMemory T * RawMemory T :=
  RawMemory_Swap RawMemory_default other.

(** [operator=(RawMemory&& rhs)]: both members are swapped. *)
Definition RawMemory_move_assign (this rhs : RawMemory T) : RawMemory T * RawMemory T :=
  RawMemory_Swap this rhs.

Definition RawMemory_Capacity (this : RawMemory T) : nat := capacity_ this.

Definition with_buffer (m : RawMemory T) (buf : list (slot T)) : RawMemory T :=
  {| buffer_ := buf; capacity_ := capacity_ m |}.

(** *** Object lifetime in a block *)

(** [new (buf + i) T(...)] with result [x]. *)
Definition construct_at (buf : list (slot T)) (i : nat) (x : T) : option (list (slot T)) :=
  if decide (i < length buf) then Some (<[i := Live x]> buf) else None.

(** [Vector::Destroy(buf + i)]: [buf[i].~T()]. *)
Definition Destroy (buf : list (slot T)) (i : nat) : option (list (slot T)) :=
  match buf !! i with
  | Some (Live _) => Some (<[i := Raw]> buf)
  | _ => None
  end.

(** [Vector::DestroyN(buf + first, n)]. *)
Fixpoint DestroyN (buf : list (slot T)) (first n : nat) : option (list (slot T)) :=
  match n with
  | 0 => Some buf
  | S n' =>
      match Destroy buf first with
      | Some buf' => DestroyN buf' (S first) n'
      | None => None
      end
  end.

(** [std::destroy_n(buf + first, n)]. *)
Definition destroy_n (buf : list (slot T)) (first n : nat) : option (list (slot T)) :=
  DestroyN buf first n.

(** [std::uninitialized_value_construct_n(buf + first, n)]. *)
Fixpoint uninitialized_value_construct_n (buf : list (slot T)) (first n : nat)
  : option (list (slot T)) :=
  match n with
  | 0 => Some buf
  | S n' =>
      match construct_at buf first value_init with
      | Some buf' => uninitialized_value_construct_n buf' (S first) n'
      | None => None
      end
  end.

(** The constructing loop of [std::uninitialized_copy_n]; [cur] is the next
    destination slot.  It stops at the first copy constructor that throws. *)
Fixpoint uninitialized_copy_loop (src : list (slot T)) (first n : nat)
    (dst : list (slot T)) (cur : nat) : res (list (slot T) * nat) :=
  match n with
  | 0 => Done (dst, cur)
  | S n' =>
      match src !! first with
      | Some (Live x) =>
          match copy_throws x with
          | Some e => Raised e (dst, cur)
          | None =>
              match construct_at dst cur x with
              | Some dst' => uninitialized_copy_loop src (S first) n' dst' (S cur)
              | None => Fault
              end
          end
      | _ => Fault
      end
  end.

(** [std::uninitialized_copy_n(src + first, n, dst + d_first)]: on an
    exception the objects built so far are destroyed and the exception is
    rethrown. *)
Definition uninitialized_copy_n (src : list (slot T)) (first n : nat)
    (dst : list (slot T)) (d_first : nat) : res (list (slot T)) :=
  match uninitialized_copy_loop src first n dst d_first with
  | Done (dst', _) => Done dst'
  | Raised e (dst', cur) =>
      match destroy_n dst' d_first (cur - d_first) with
      | Some dst'' => Raised e dst''
      | None => Fault
      end
  | Fault => Fault
  end.

(** The constructing loop of [std::uninitialized_move_n]: each source
    object is left moved-from. *)
Fixpoint uninitialized_move_loop (src : list (slot T)) (first n : nat)
    (dst : list (slot T)) (cur : nat) : res (list (slot T) * list (slot T) * nat) :=
  match n with
  | 0 => Done (src, dst, cur)
  | S n' =>
      match src !! first with
      | Some (Live x) =>
          match move_throws x with
          | Some e => Raised e (src, dst, cur)
          | None =>
              match construct_at dst cur x with
              | Some dst' =>
                  uninitialized_move_loop (<[first := Live (moved_from x)]> src)
                    (S first) n' dst' (S cur)
              | None => Fault
              end
          end
      | _ => Fault
      end
  end.

(** [std::uninitialized_move_n(src + first, n, dst + d_first)]; the result
    is the source block and the destination block. *)
Definition uninitialized_move_n (src : list (slot T)) (first n : nat)
    (dst : list (slot T)) (d_first : nat) : res (list (slot T) * list (slot T)) :=
  match uninitialized_move_loop src first n dst d_first with
  | Done (src', dst', _) => Done (src', dst')
  | Raised e (src', dst', cur) =>
      match destroy_n dst' d_first (cur - d_first) with
      | Some dst'' => Raised e (src', dst'')
      | None => Fault
      end
  | Fault => Fault
  end.

(** The branch an [if constexpr] selects; copying leaves the source block
    as it is. *)
Definition relocate_n (by_move : bool) (src : list (slot T)) (first n : nat)
    (dst : list (slot T)) (d_first : nat) : res (list (slot T) * list (slot T)) :=
  if by_move then uninitialized_move_n src first n dst d_first
  else
    match uninitialized_copy_n src first n dst d_first with
    | Done dst' => Done (src, dst')
    | Raised e dst' => Raised e (src, dst')
    | Fault => Fault
    end.

(** [dst[d] = src[s]] (copy assignment between live objects). *)
Definition copy_assign_at (src : list (slot T)) (s : nat) (dst : list (slot T)) (d : nat)
  : option (list (slot T)) :=
  match src !! s, dst !! d with
  | Some (Live x), Some (Live _) => Some (<[d := Live x]> dst)
  | _, _ => None
  end.

(** [std::copy_n(src + first, n, dst + d_first)]. *)
Fixpoint copy_n (src : list (slot T)) (first n : nat) (dst : list (slot T)) (d_first : nat)
  : option (list (slot T)) :=
  match n with
  | 0 => Some dst
  | S n' =>
      match copy_assign_at src first dst d_first with
      | Some dst' => copy_n src (S first) n' dst' (S d_first)
      | None => None
      end
  end.

(** [buf[d] = std::move(buf[s])] inside one block. *)
Definition move_assign_at (buf : list (slot T)) (s d : nat) : option (list (slot T)) :=
  match buf !! s, buf !! d with
  | Some (Live x), Some (Live _) =>
      Some (<[d := Live x]> (<[s := Live (moved_from x)]> buf))
  | _, _ => None
  end.

(** The loop of [std::move_backward]: both iterators step back, then the
    object at [last] is move-assigned to the one at [d_last]; it runs
    [n = last - first] times. *)
Fixpoint move_backward_loop (buf : list (slot T)) (first n d_last : nat)
  : option (list (slot T)) :=
  match n with
  | 0 => Some buf
  | S n' =>
      match d_last with
      | 0 => None
      | S d' =>
          match move_assign_at buf (first + n') d' with
          | Some buf' => move_backward_loop buf' first n' d'
          | None => None
          end
      end
  end.

(** [std::move_backward(buf + first, buf + last, buf + d_last)]; the range
    must be valid. *)
Definition move_backward (buf : list (slot T)) (first last d_last : nat)
  : option (list (slot T)) :=
  if decide (first ≤ last) then move_backward_loop buf first (last - first) d_last
  else None.

(** The loop of the algorithm [std::move]: the object at [first] is
    move-assigned to the one at [d_first], then both iterators step on. *)
Fixpoint move_loop (buf : list (slot T)) (first n d_first : nat)
  : option (list (slot T)) :=
  match n with
  | 0 => Some buf
  | S n' =>
      match move_assign_at buf first d_first with
      | Some buf' => move_loop buf' (S first) n' (S d_first)
      | None => None
      end
  end.

(** [std::move(buf + first, buf + last, buf + d_first)]. *)
Definition move_range (buf : list (slot T)) (first last d_first : nat)
  : option (list (slot T)) :=
  if decide (first ≤ last) then move_loop buf first (last - first) d_first
  else None.

(** [T(std::forward<Args>(args)...)]. *)
Definition construct (args : Args T) : exn + T :=
  match args with
  | ByConstRef value =>
      match copy_throws value with Some e => inl e | None => inr value end
  | ByRvalue value =>
      match move_throws value with Some e => inl e | None => inr value end
  | ByCtor r => r
  end.

(** *** class Vector *)

Definition stay (v : Vector T) : post T := {| self := v; leaked := [] |}.

Definition with_data (v : Vector T) (buf : list (slot T)) : Vector T :=
  {| data_ := with_buffer (data_ v) buf; size_ := size_ v |}.

Definition Size (v : Vector T) : nat := size_ v.

Definition Capacity (v : Vector T) : nat := RawMemory_Capacity (data_ v).

(** [RawMemory::operator[]]: [assert(index < capacity_)]. *)
Definition RawMemory_index (m : RawMemory T) (index : nat) : option nat :=
  if decide (index < capacity_ m) then Some index else None.

(** [Vector()] *)
Definition Vector_default : Vector T :=
  {| data_ := RawMemory_default; size_ := 0 |}.

(** [explicit Vector(size_t size)] *)
Definition Vector_sized (size : nat) : option (Vector T) :=
  let data := RawMemory_new size in
  match uninitialized_value_construct_n (buffer_ data) 0 size with
  | Some buf => Some {| data_ := with_buffer data buf; size_ := size |}
  | None => None
  end.

(** [Vector(const Vector& v)]: the new vector, or the exception of a copy
    constructor; in both cases with what the released storage leaked. *)
Definition Vector_copy_ctor (v : Vector T) : outcome (Vector T) (list T) :=
  let data := RawMemory_new (size_ v) in
  match uninitialized_copy_n (buffer_ (data_ v)) 0 (size_ v) (buffer_ data) 0 with
  | Done buf => Ok {| data_ := with_buffer data buf; size_ := size_ v |} []
  | Raised e buf => Throw e (Deallocate buf)
  | Fault => Undefined
  end.

(** [~Vector()]: [DestroyN(data_.GetAddress(), size_)], then [~RawMemory]. *)
Definition Vector_dtor (v : Vector T) : option (list T) :=
  match DestroyN (buffer_ (data_ v)) 0 (size_ v) with
  | Some buf => Some (Deallocate buf)
  | None => None
  end.

(** [void Swap(Vector& other) noexcept] *)
Definition Swap (this other : Vector T) : Vector T * Vector T :=
  let '(d, od) := RawMemory_Swap (data_ this) (data_ other) in
  ({| data_ := d; size_ := size_ other |}, {| data_ := od; size_ := size_ this |}).

(** [Vector(Vector&& other) noexcept]: [data_] is move-constructed from
    [other.data_], then [size_] (still [0]) is swapped with [other.size_].
    Returns the new vector and [other]. *)
Definition Vector_move_ctor (other : Vector T) : Vector T * Vector T :=
  let '(d, od) := RawMemory_move_ctor (data_ other) in
  ({| data_ := d; size_ := size_ other |}, {| data_ := od; size_ := 0 |}).

(** [void Reserve(size_t new_capacity)] *)
Definition Reserve (new_capacity : nat) (v : Vector T) : outcome unit (post T) :=
  if decide (new_capacity ≤ RawMemory_Capacity (data_ v)) then Ok tt (stay v)
  else
    let new_data := RawMemory_new new_capacity in
    match relocate_n (is_nothrow_move_constructible || negb is_copy_constructible)
            (buffer_ (data_ v)) 0 (size_ v) (buffer_ new_data) 0 with
    | Fault => Undefined
    | Raised e (src, dst) =>
        Throw e {| self := with_data v src; leaked := Deallocate dst |}
    | Done (src, dst) =>
        match destroy_n src 0 (size_ v) with
        | None => Undefined
        | Some old =>
            let '(data, new_data') :=
              RawMemory_Swap (with_buffer (data_ v) old) (with_buffer new_data dst) in
            Ok tt {| self := {| data_ := data; size_ := size_ v |};
                     leaked := Deallocate (buffer_ new_data') |}
        end
    end.

(** [void Resize(size_t new_size)] *)
Definition Resize (new_size : nat) (v : Vector T) : outcome unit (post T) :=
  if decide (size_ v < new_size) then
    match Reserve new_size v with
    | Ok _ p =>
        let v1 := self p in
        match uninitialized_value_construct_n (buffer_ (data_ v1)) (size_ v1)
                (new_size - size_ v1) with
        | Some buf =>
            Ok tt {| self := {| data_ := with_buffer (data_ v1) buf; size_ := new_size |};
                     leaked := leaked p |}
        | None => Undefined
        end
    | Throw e p => Throw e p
    | Terminate => Terminate
    | Undefined => Undefined
    end
  else
    match destroy_n (buffer_ (data_ v)) new_size (size_ v - new_size) with
    | Some buf =>
        Ok tt (stay {| data_ := with_buffer (data_ v) buf; size_ := new_size |})
    | None => Undefined
    end.

(** [void PopBack()] *)
Definition PopBack (v : Vector T) : outcome unit (post T) :=
  if decide (size_ v = 0) then Ok tt (stay v)
  else
    (* [data_ + size_]: [assert(offset <= capacity_)] *)
    if decide (size_ v ≤ capacity_ (data_ v)) then
      match Destroy (buffer_ (data_ v)) (size_ v - 1) with
      | Some buf =>
          Ok tt (stay {| data_ := with_buffer (data_ v) buf; size_ := size_ v - 1 |})
      | None => Undefined
      end
    else Undefined.

(** [T& EmplaceBack(Args&&... args)]; the reference returned is the index
    of the slot it refers to. *)
Definition EmplaceBack (args : Args T) (v : Vector T) : outcome nat (post T) :=
  if decide (size_ v = Capacity v) then
    let tmp := RawMemory_new (if decide (size_ v = 0) then 1 else size_ v * 2) in
    match construct args with
    | inl e => Throw e {| self := v; leaked := Deallocate (buffer_ tmp) |}
    | inr x =>
        match construct_at (buffer_ tmp) (size_ v) x with
        | None => Undefined
        | Some tmp0 =>
            match relocate_n
                    (is_nothrow_move_constructible || negb is_nothrow_copy_constructible)
                    (buffer_ (data_ v)) 0 (size_ v) tmp0 0 with
            | Fault => Undefined
            | Raised e (src, dst) =>
                Throw e {| self := with_data v src; leaked := Deallocate dst |}
            | Done (src, dst) =>
                match destroy_n src 0 (size_ v) with
                | None => Undefined
                | Some old =>
                    let size := S (size_ v) in
                    let '(data, tmp') :=
                      RawMemory_move_assign (with_buffer (data_ v) old) (with_buffer tmp dst) in
                    match RawMemory_index data (size - 1) with
                    | Some r =>
                        Ok r {| self := {| data_ := data; size_ := size |};
                                leaked := Deallocate (buffer_ tmp') |}
                    | None => Undefined
                    end
                end
            end
        end
    end
  else
    match construct args with
    | inl e => Throw e (stay v)
    | inr x =>
        match construct_at (buffer_ (data_ v)) (size_ v) x with
        | None => Undefined
        | Some buf =>
            let size := S (size_ v) in
            let data := with_buffer (data_ v) buf in
            match RawMemory_index data (size - 1) with
            | Some r => Ok r (stay {| data_ := data; size_ := size |})
            | None => Undefined
            end
        end
    end.

(** [void PushBack(const T& value)] *)
Definition PushBack (value : T) (v : Vector T) : outcome unit (post T) :=
  match EmplaceBack (ByConstRef value) v with
  | Ok _ p => Ok tt p
  | Throw e p => Throw e p
  | Terminate => Terminate
  | Undefined => Undefined
  end.

(** [void PushBack(T&& value)] *)
Definition PushBack_rvalue (value : T) (v : Vector T) : outcome unit (post T) :=
  match EmplaceBack (ByRvalue value) v with
  | Ok _ p => Ok tt p
  | Throw e p => Throw e p
  | Terminate => Terminate
  | Undefined => Undefined
  end.

(** The relocation block of [Emplace] when it reallocates: the branch the
    [if constexpr] selects, with its [try]/[catch] statements.  [Done] means
    control reaches the statement after the block ([std::destroy_n]);
    [Raised] means an exception leaves [Emplace].  A handler catches
    [const std::exception&], cleans up and does not rethrow. *)
Definition Emplace_relocate (src : list (slot T)) (size index : nat) (tmp : list (slot T))
  : res (list (slot T) * list (slot T)) :=
  if is_nothrow_move_constructible || negb is_nothrow_copy_constructible then
    match uninitialized_move_n src 0 index tmp 0 with
    | Fault => Fault
    | Raised e st => Raised e st
    | Done (src1, tmp1) =>
        match uninitialized_move_n src1 index (size - index) tmp1 (index + 1) with
        | Fault => Fault
        | Done st => Done st
        | Raised StdException (src2, tmp2) =>
            match DestroyN tmp2 0 index with
            | Some tmp3 => Done (src2, tmp3)
            | None => Fault
            end
        | Raised OtherException st => Raised OtherException st
        end
    end
  else
    let first :=
      match uninitialized_copy_n src 0 index tmp 0 with
      | Fault => Fault
      | Done tmp1 => Done tmp1
      | Raised StdException tmp1 =>
          match Destroy tmp1 index with
          | Some tmp2 => Done tmp2
          | None => Fault
          end
      | Raised OtherException tmp1 => Raised OtherException tmp1
      end in
    match first with
    | Fault => Fault
    | Raised e tmp1 => Raised e (src, tmp1)
    | Done tmp1 =>
        match uninitialized_copy_n src index (size - index) tmp1 (index + 1) with
        | Fault => Fault
        | Done tmp2 => Done (src, tmp2)
        | Raised StdException tmp2 =>
            match DestroyN tmp2 0 index with
            | Some tmp3 => Done (src, tmp3)
            | None => Fault
            end
        | Raised OtherException tmp2 => Raised OtherException (src, tmp2)
        end
    end.

(** [int index = pos - begin()]: the difference of the two pointers,
    converted to a 32-bit [int] (reduced modulo [2^32]). *)
Definition int_of (n : nat) : Z :=
  ((Z.of_nat n + 2 ^ 31) mod 2 ^ 32 - 2 ^ 31)%Z.

(** The slot a pointer [buf + index] addresses; with a negative [index] it
    addresses memory before the block. *)
Definition offset (index : Z) : option nat :=
  if decide (0 ≤ index)%Z then Some (Z.to_nat index) else None.

(** [n] is a value of [int]. *)
Definition fits_int (n : nat) : Prop := (Z.of_nat n < 2 ^ 31)%Z.

(** [iterator Emplace(const_iterator pos, Args&&... args)]; [pos] is given
    as [pos - begin()] and has to lie in [[begin(), end()]].  The header
    works with [int index = pos - begin()], and the iterator returned,
    [begin() + index], is given as its index. *)
Definition Emplace (pos : nat) (args : Args T) (v : Vector T) : outcome nat (post T) :=
  if decide (pos ≤ size_ v) then
    let index := int_of pos in
    if decide (size_ v = Capacity v) then
      let tmp := RawMemory_new (if decide (size_ v = 0) then 1 else size_ v * 2) in
      match construct args with
      | inl e => Throw e {| self := v; leaked := Deallocate (buffer_ tmp) |}
      | inr x =>
          match offset index with
          | None => Undefined
          | Some i =>
              match construct_at (buffer_ tmp) i x with
              | None => Undefined
              | Some tmp0 =>
                  match Emplace_relocate (buffer_ (data_ v)) (size_ v) i tmp0 with
                  | Fault => Undefined
                  | Raised e (src, dst) =>
                      Throw e {| self := with_data v src; leaked := Deallocate dst |}
                  | Done (src, dst) =>
                      match destroy_n src 0 (size_ v) with
                      | None => Undefined
                      | Some old =>
                          let '(data, tmp') :=
                            RawMemory_move_assign (with_buffer (data_ v) old)
                              (with_buffer tmp dst) in
                          Ok i {| self := {| data_ := data; size_ := S (size_ v) |};
                                  leaked := Deallocate (buffer_ tmp') |}
                      end
                  end
              end
          end
      end
    else
      if decide (size_ v ≠ 0) then
        (* [T tmp(std::forward<Args>(args)...);] *)
        match construct args with
        | inl e => Throw e (stay v)
        | inr x =>
            (* [new (end()) T(std::move(data_[size_]));] *)
            match RawMemory_index (data_ v) (size_ v) with
            | None => Undefined
            | Some last =>
                match buffer_ (data_ v) !! last with
                | Some (Live y) =>
                    match move_throws y with
                    | Some e => Throw e (stay v)
                    | None =>
                        match construct_at (buffer_ (data_ v)) (size_ v) y with
                        | None => Undefined
                        | Some buf1 =>
                            match offset index with
                            | None => Undefined
                            | Some i =>
                                (* [std::move_backward(begin() + index, end() - 1, end());] *)
                                match move_backward buf1 i (size_ v - 1) (size_ v) with
                                | None => Undefined
                                | Some buf2 =>
                                    (* [data_[index] = std::forward<T>(tmp);] *)
                                    match RawMemory_index (data_ v) i with
                                    | None => Undefined
                                    | Some j =>
                                        match buf2 !! j with
                                        | Some (Live _) =>
                                            Ok i
                                              (stay {| data_ := with_buffer (data_ v)
                                                                  (<[j := Live x]> buf2);
                                                       size_ := S (size_ v) |})
                                        | _ => Undefined
                                        end
                                    end
                                end
                            end
                        end
                    end
                | _ => Undefined
                end
            end
        end
      else
        (* [new (begin() + index) T(std::forward<Args>(args)...);] *)
        match construct args with
        | inl e => Throw e (stay v)
        | inr x =>
            match offset index with
            | None => Undefined
            | Some i =>
                match construct_at (buffer_ (data_ v)) i x with
                | None => Undefined
                | Some buf =>
                    Ok i (stay {| data_ := with_buffer (data_ v) buf;
                                  size_ := S (size_ v) |})
                end
            end
        end
  else Undefined.

(** [iterator Insert(const_iterator pos, const T& value)] *)
Definition Insert (pos : nat) (value : T) (v : Vector T) : outcome nat (post T) :=
  Emplace pos (ByConstRef value) v.

(** [iterator Insert(const_iterator pos, T&& value)] *)
Definition Insert_rvalue (pos : nat) (value : T) (v : Vector T) : outcome nat (post T) :=
  Emplace pos (ByRvalue value) v.

(** [iterator Erase(const_iterator pos)]; [pos] is given as
    [pos - begin()] and has to be dereferenceable.  The header works with
    [int index = pos - begin()]. *)
Definition Erase (pos : nat) (v : Vector T) : outcome nat (post T) :=
  if decide (pos < size_ v) then
    match offset (int_of pos) with
    | None => Undefined
    | Some index =>
        match move_range (buffer_ (data_ v)) (index + 1) (size_ v) index with
        | None => Undefined
        | Some buf1 =>
            match Destroy buf1 (size_ v - 1) with
            | None => Undefined
            | Some buf2 =>
                Ok index (stay {| data_ := with_buffer (data_ v) buf2;
                                  size_ := size_ v - 1 |})
            end
        end
    end
  else Undefined.

(** [Vector& operator=(const Vector& rhs)] for [this != &rhs]. *)
Definition Vector_copy_assign (this rhs : Vector T) : outcome unit (post T) :=
  if decide (RawMemory_Capacity (data_ this) < size_ rhs) then
    match Vector_copy_ctor rhs with
    | Ok copy l =>
        let '(this', copy') := Swap this copy in
        match Vector_dtor copy' with
        | Some l' => Ok tt {| self := this'; leaked := l ++ l' |}
        | None => Undefined
        end
    | Throw e l => Throw e {| self := this; leaked := l |}
    | Terminate => Terminate
    | Undefined => Undefined
    end
  else
    if decide (size_ rhs < size_ this) then
      match copy_n (buffer_ (data_ rhs)) 0 (size_ rhs) (buffer_ (data_ this)) 0 with
      | None => Undefined
      | Some buf1 =>
          match destroy_n buf1 (size_ rhs) (size_ this - size_ rhs) with
          | None => Undefined
          | Some buf2 =>
              Ok tt (stay {| data_ := with_buffer (data_ this) buf2; size_ := size_ rhs |})
          end
      end
    else
      match copy_n (buffer_ (data_ rhs)) 0 (size_ this) (buffer_ (data_ this)) 0 with
      | None => Undefined
      | Some buf1 =>
          match uninitialized_copy_n (buffer_ (data_ rhs)) (size_ this)
                  (size_ rhs - size_ this) buf1 (size_ this) with
          | Fault => Undefined
          | Raised e buf2 => Throw e (stay (with_data this buf2))
          | Done buf2 =>
              Ok tt (stay {| data_ := with_buffer (data_ this) buf2; size_ := size_ rhs |})
          end
      end.

(** [Vector& operator=(Vector&& rhs) noexcept] for [this != &rhs]; the state
    is [this] and [rhs]. *)
Definition Vector_move_assign (this rhs : Vector T) : outcome unit (post T * Vector T) :=
  if decide (RawMemory_Capacity (data_ this) < size_ rhs) then
    match Reserve (size_ rhs) this with
    | Ok _ p =>
        let '(this', rhs') := Swap (self p) rhs in
        Ok tt ({| self := this'; leaked := leaked p |}, rhs')
    | Throw _ _ => Terminate
    | Terminate => Terminate
    | Undefined => Undefined
    end
  else
    let '(this', rhs') := Swap this rhs in
    Ok tt (stay this', rhs').

End Code.

Arguments Allocate : simpl never.

(** ** Well-formed vectors *)

Section Invariant.
Context {T : Type} `{Element T}.

(** The vector whose live objects are [xs], in a block of [c] slots. *)
Definition mk (xs : list T) (c : nat) : Vector T :=
  {| data_ := {| buffer_ := (Live <$> xs) ++ replicate (c - length xs) Raw;
                 capacity_ := c |};
     size_ := length xs |}.

(** The class invariant: the block has [capacity_] slots (a block that
    exists, so that its byte count is a [size_t]), [size_] does not exceed
    it, the first [size_] slots hold live objects and the others are
    raw. *)
Definition invariant (v : Vector T) : Prop :=
  length (buffer_ (data_ v)) = capacity_ (data_ v) ∧
  allocatable (capacity_ (data_ v)) ∧
  size_ v ≤ capacity_ (data_ v) ∧
  (∀ i, i < size_ v → ∃ x, buffer_ (data_ v) !! i = Some (Live x)) ∧
  (∀ i, size_ v ≤ i < capacity_ (data_ v) → buffer_ (data_ v) !! i = Some Raw).

(** The part of the invariant that relates the two counters and the block:
    the block has no more than [capacity_] slots and [size_] does not
    exceed [capacity_]. *)
Definition size_within_capacity (v : Vector T) : Prop :=
  length (buffer_ (data_ v)) ≤ capacity_ (data_ v) ∧
  size_ v ≤ capacity_ (data_ v).

(** What an algorithm leaves of a block of [n] slots has [n] slots. *)
Definition keeps1 (r : option (list (slot T))) (n : nat) : Prop :=
  match r with Some buf => length buf = n | None => True end.

Definition keeps_res1 (r : res (list (slot T))) (n : nat) : Prop :=
  match r with Done buf | Raised _ buf => length buf = n | Fault => True end.

Definition keeps_res2 (r : res (list (slot T) * list (slot T))) (n m : nat) : Prop :=
  match r with
  | Done (src, dst) | Raised _ (src, dst) => length src = n ∧ length dst = m
  | Fault => True
  end.

(** The element sequence: the objects in the slots [[0, size_)]. *)
Definition elements (v : Vector T) : list T :=
  omap live_object (take (size_ v) (buffer_ (data_ v))).

(** The constructor the relocation uses ([by_move]: the move constructor,
    otherwise the copy constructor) throws on none of [xs]. *)
Definition relocation_ok (by_move : bool) (xs : list T) : Prop :=
  Forall (λ x, (if by_move then move_throws x else copy_throws x) = None) xs.

(** Neither constructor throws on [x]. *)
Definition nothrow (x : T) : Prop :=
  copy_throws x = None ∧ move_throws x = None.

(** The capacity [EmplaceBack] and [Emplace] leave behind. *)
Definition capacity_after_insert (size capacity : nat) : nat :=
  if decide (size = capacity) then (if decide (size = 0) then 1 else size * 2)
  else capacity.

(** The capacity after [n] appends to a vector of [size] elements in a
    block of [capacity] slots. *)
Fixpoint capacity_after_appends (n size capacity : nat) : nat :=
  match n with
  | 0 => capacity
  | S n => capacity_after_appends n (S size) (capacity_after_insert size capacity)
  end.

(** A caller appending one value after the other with [PushBack]. *)
Fixpoint PushBack_each (values : list T) (v : Vector T) : outcome unit (post T) :=
  match values with
  | [] => Ok tt (stay v)
  | value :: rest =>
      match PushBack value v with
      | Ok _ p =>
          match PushBack_each rest (self p) with
          | Ok _ q => Ok tt {| self := self q; leaked := leaked p ++ leaked q |}
          | Throw e q => Throw e {| self := self q; leaked := leaked p ++ leaked q |}
          | Terminate => Terminate
          | Undefined => Undefined
          end
      | Throw e p => Throw e p
      | Terminate => Terminate
      | Undefined => Undefined
      end
  end.

(** A caller inserting a value and erasing at the iterator it got back. *)
Definition insert_then_erase (index : nat) (value : T) (v : Vector T)
  : outcome nat (post T) :=
  match Insert index value v with
  | Ok pos p =>
      match Erase pos (self p) with
      | Ok r q => Ok r {| self := self q; leaked := leaked p ++ leaked q |}
      | Throw e q => Throw e {| self := self q; leaked := leaked p ++ leaked q |}
      | Terminate => Terminate
      | Undefined => Undefined
      end
  | Throw e p => Throw e p
  | Terminate => Terminate
  | Undefined => Undefined
  end.

(** The vector a call leaves behind, whether it returned or threw. *)
Definition leaves {R : Type} (o : outcome R (post T)) (v' : Vector T) : Prop :=
  match o with
  | Ok _ p | Throw _ p => self p = v'
  | Terminate | Undefined => False
  end.

(** The vectors a program can hold: built by a constructor, or left behind
    by a call of a public method on vectors it already holds, the call
    having defined behaviour and either returning or throwing. *)
Inductive reachable : Vector T → Prop :=
| reach_default : reachable Vector_default
| reach_sized size v : Vector_sized size = Some v → reachable v
| reach_copy_ctor v b l :
    reachable v → Vector_copy_ctor v = Ok b l → reachable b
| reach_move_ctor v :
    reachable v → reachable (Vector_move_ctor v).1
| reach_moved_from v :
    reachable v → reachable (Vector_move_ctor v).2
| reach_copy_assign this rhs v' :
    reachable this → reachable rhs →
    leaves (Vector_copy_assign this rhs) v' → reachable v'
| reach_move_assign this rhs p rhs' :
    reachable this → reachable rhs →
    Vector_move_assign this rhs = Ok tt (p, rhs') → reachable (self p)
| reach_move_assigned_from this rhs p rhs' :
    reachable this → reachable rhs →
    Vector_move_assign this rhs = Ok tt (p, rhs') → reachable rhs'
| reach_Swap this other :
    reachable this → reachable other → reachable (Swap this other).1
| reach_Resize new_size v v' :
    reachable v → leaves (Resize new_size v) v' → reachable v'
| reach_Reserve new_capacity v v' :
    reachable v → leaves (Reserve new_capacity v) v' → reachable v'
| reach_PushBack value v v' :
    reachable v → leaves (PushBack value v) v' → reachable v'
| reach_PushBack_rvalue value v v' :
    reachable v → leaves (PushBack_rvalue value v) v' → reachable v'
| reach_PopBack v v' :
    reachable v → leaves (PopBack v) v' → reachable v'
| reach_EmplaceBack args v v' :
    reachable v → leaves (EmplaceBack args v) v' → reachable v'
| reach_Emplace index args v v' :
    reachable v → leaves (Emplace index args v) v' → reachable v'
| reach_Erase index v v' :
    reachable v → leaves (Erase index v) v' → reachable v'.

End Invariant.


(** ** Element types used as concrete inputs *)

(** A type like [int]: nothing throws, a moved-from object keeps its value. *)
Definition plain_nat : Element nat :=
  {| sizeof_T := 4;
     is_nothrow_move_constructible := true;
     is_copy_constructible := true;
     is_nothrow_copy_constructible := true;
     value_init := 0;
     copy_throws := λ _, None;
     move_throws := λ _, None;
     moved_from := λ x, x |}.

(** A copyable type whose constructors are not [noexcept]: the move
    constructor throws a [std::exception] when the source holds [7] and
    leaves [0] in an object it moved from; the copy constructor happens
    never to throw. *)
Definition fragile_nat : Element nat :=
  {| sizeof_T := 4;
     is_nothrow_move_constructible := false;
     is_copy_constructible := true;
     is_nothrow_copy_constructible := false;
     value_init := 0;
     copy_throws := λ _, None;
     move_throws := λ x, if decide (x = 7) then Some StdException else None;
     moved_from := λ _, 0 |}.

(** A move-only type (no copy constructor) with the same move constructor. *)
Definition move_only_nat : Element nat :=
  {| sizeof_T := 4;
     is_nothrow_move_constructible := false;
     is_copy_constructible := false;
     is_nothrow_copy_constructible := false;
     value_init := 0;
     copy_throws := λ _, None;
     move_throws := λ x, if decide (x = 7) then Some StdException else None;
     moved_from := λ _, 0 |}.
(** ** Accessors *)

Section Accessors.
Context {T : Type}.

(** [iterator begin()]: [data_.GetAddress()], as an index. *)
Definition Vector_begin (v : Vector T) : nat := 0.

(** [iterator end()]: [data_.GetAddress() + size_], as an index. *)
Definition Vector_end (v : Vector T) : nat := 0 + size_ v.

(** [T& Vector::operator[](size_t index)]: [assert(index < size_)], then
    [data_[index]]; the reference is the index of the slot, and there is
    none when an assertion fails. *)
Definition Vector_index (v : Vector T) (index : nat) : option nat :=
  if decide (index < size_ v) then RawMemory_index (data_ v) index else None.

(** Reading through a reference: the object in the slot it refers to. *)
Definition read (v : Vector T) (r : nat) : option T :=
  match buffer_ (data_ v) !! r with
  | Some (Live x) => Some x
  | _ => None
  end.

End Accessors.

(** A copyable type without move constructor whose copy constructor throws
    a [std::exception] when the source holds [7]; moving copies. *)
Definition copy_fragile_nat : Element nat :=
  {| sizeof_T := 4;
     is_nothrow_move_constructible := false;
     is_copy_constructible := true;
     is_nothrow_copy_constructible := false;
     value_init := 0;
     copy_throws := λ x, if decide (x = 7) then Some StdException else None;
     move_throws := λ x, if decide (x = 7) then Some StdException else None;
     moved_from := λ x, x |}.

(** ** The block-level algorithms on a run of live objects *)

Section Blocks.
Context {T : Type} `{Element T}.
Implicit Types (xs ys : list T) (pre post mid : list (slot T)).

Lemma lookup_run_head pre (s : slot T) post :
  (pre ++ s :: post) !! length pre = Some s.
Proof. by rewrite list_lookup_middle. Qed.

Lemma insert_run_head pre (s s' : slot T) post :
  <[length pre := s']> (pre ++ s :: post) = pre ++ s' :: post.
Proof.
  rewrite insert_app_r_alt by lia.
  by rewrite Nat.sub_diag.
Qed.

Lemma construct_at_run_head pre (s : slot T) post x :
  construct_at (pre ++ s :: post) (length pre) x = Some (pre ++ Live x :: post).
Proof.
  unfold construct_at. rewrite insert_run_head.
  case_decide as Hlt; [done|].
  rewrite length_app in Hlt. simpl in Hlt. lia.
Qed.

Lemma Destroy_run_head pre x post :
  Destroy (pre ++ Live x :: post) (length pre) = Some (pre ++ Raw :: post).
Proof. unfold Destroy. by rewrite lookup_run_head, insert_run_head. Qed.

Lemma snoc_app {A} (l : list A) a l' : l ++ a :: l' = (l ++ [a]) ++ l'.
Proof. by rewrite <- app_assoc. Qed.

Lemma length_snoc {A} (l : list A) a : length (l ++ [a]) = S (length l).
Proof. rewrite length_app. simpl. lia. Qed.

Lemma DestroyN_run ys : ∀ pre post,
  DestroyN (pre ++ (Live <$> ys) ++ post) (length pre) (length ys)
  = Some (pre ++ replicate (length ys) Raw ++ post).
Proof.
  induction ys as [|y ys IH]; intros pre post; [done|].
  cbn [fmap list_fmap length DestroyN app replicate].
  rewrite Destroy_run_head.
  rewrite (snoc_app pre Raw), <- (length_snoc pre Raw).
  rewrite IH. by rewrite <- app_assoc.
Qed.

Lemma uninitialized_value_construct_n_run mid : ∀ pre post,
  uninitialized_value_construct_n (pre ++ mid ++ post) (length pre) (length mid)
  = Some (pre ++ (Live <$> replicate (length mid) value_init) ++ post).
Proof.
  induction mid as [|m mid IH]; intros pre post; [done|].
  cbn [fmap list_fmap length uninitialized_value_construct_n app replicate].
  rewrite construct_at_run_head.
  rewrite (snoc_app pre (Live value_init)), <- (length_snoc pre (Live value_init)).
  rewrite IH. by rewrite <- app_assoc.
Qed.

Lemma uninitialized_copy_loop_run ys : ∀ spre spost dpre mid dpost,
  Forall (λ y, copy_throws y = None) ys →
  length mid = length ys →
  uninitialized_copy_loop (spre ++ (Live <$> ys) ++ spost) (length spre) (length ys)
    (dpre ++ mid ++ dpost) (length dpre)
  = Done (dpre ++ (Live <$> ys) ++ dpost, length dpre + length ys).
Proof.
  induction ys as [|y ys IH]; intros spre spost dpre mid dpost Hok Hlen.
  - destruct mid; [|done]. simpl. by rewrite Nat.add_0_r.
  - destruct mid as [|m mid]; [done|].
    inversion Hok as [|? ? Hy Hys]; subst.
    cbn [fmap list_fmap length uninitialized_copy_loop app].
    rewrite lookup_run_head, Hy, construct_at_run_head.
    rewrite (snoc_app spre), (snoc_app dpre (Live y)).
    rewrite <- (length_snoc spre (Live y)), <- (length_snoc dpre (Live y)).
    rewrite (IH _ _ _ mid) by (done || (simpl in Hlen; lia)).
    rewrite <- app_assoc, length_snoc. simpl. do 2 f_equal. lia.
Qed.

Lemma uninitialized_copy_n_run ys spre spost dpre mid dpost :
  Forall (λ y, copy_throws y = None) ys →
  length mid = length ys →
  uninitialized_copy_n (spre ++ (Live <$> ys) ++ spost) (length spre) (length ys)
    (dpre ++ mid ++ dpost) (length dpre)
  = Done (dpre ++ (Live <$> ys) ++ dpost).
Proof.
  intros Hok Hlen. unfold uninitialized_copy_n.
  by rewrite uninitialized_copy_loop_run.
Qed.

Lemma uninitialized_move_loop_run ys : ∀ spre spost dpre mid dpost,
  Forall (λ y, move_throws y = None) ys →
  length mid = length ys →
  uninitialized_move_loop (spre ++ (Live <$> ys) ++ spost) (length spre) (length ys)
    (dpre ++ mid ++ dpost) (length dpre)
  = Done (spre ++ (Live <$> (moved_from <$> ys)) ++ spost,
          dpre ++ (Live <$> ys) ++ dpost, length dpre + length ys).
Proof.
  induction ys as [|y ys IH]; intros spre spost dpre mid dpost Hok Hlen.
  - destruct mid; [|done]. simpl. by rewrite Nat.add_0_r.
  - destruct mid as [|m mid]; [done|].
    inversion Hok as [|? ? Hy Hys]; subst.
    cbn [fmap list_fmap length uninitialized_move_loop app].
    rewrite lookup_run_head, Hy, construct_at_run_head, insert_run_head.
    rewrite (snoc_app spre), (snoc_app dpre (Live y)).
    rewrite <- (length_snoc spre (Live (moved_from y))), <- (length_snoc dpre (Live y)).
    rewrite (IH _ _ _ mid) by (done || (simpl in Hlen; lia)).
    rewrite <- !app_assoc, length_snoc. simpl. do 2 f_equal. lia.
Qed.

Lemma uninitialized_move_n_run ys spre spost dpre mid dpost :
  Forall (λ y, move_throws y = None) ys →
  length mid = length ys →
  uninitialized_move_n (spre ++ (Live <$> ys) ++ spost) (length spre) (length ys)
    (dpre ++ mid ++ dpost) (length dpre)
  = Done (spre ++ (Live <$> (moved_from <$> ys)) ++ spost,
          dpre ++ (Live <$> ys) ++ dpost).
Proof.
  intros Hok Hlen. unfold uninitialized_move_n.
  by rewrite uninitialized_move_loop_run.
Qed.

End Blocks.

(** ** Well-formed vectors are the vectors [mk xs c] *)

Section Representation.
Context {T : Type} `{Element T}.
Implicit Types (xs ys : list T) (v : Vector T).

Lemma Deallocate_raw k : Deallocate (replicate k (@Raw T)) = [].
Proof. induction k as [|k IH]; [done|]. simpl. apply IH. Qed.

Lemma Deallocate_live xs : Deallocate (Live <$> xs) = xs.
Proof.
  induction xs as [|x xs IH]; [done|].
  change (Deallocate (Live <$> x :: xs)) with (x :: Deallocate (Live <$> xs)).
  by rewrite IH.
Qed.

Lemma Deallocate_app (l1 l2 : list (slot T)) :
  Deallocate (l1 ++ l2) = Deallocate l1 ++ Deallocate l2.
Proof. apply omap_app. Qed.

Lemma Size_mk xs c : Size (mk xs c) = length xs.
Proof. done. Qed.

Lemma Capacity_mk xs c : Capacity (mk xs c) = c.
Proof. done. Qed.

Lemma elements_mk xs c : elements (mk xs c) = xs.
Proof.
  unfold elements, mk. simpl.
  rewrite take_app_length' by (by rewrite length_fmap).
  apply Deallocate_live.
Qed.

Lemma Allocate_fits n : allocatable n → Allocate n = replicate n Raw.
Proof.
  unfold allocatable, Allocate, byte_count. intros Hn.
  rewrite N.mod_small by done. rewrite N.div_mul by done.
  by rewrite Nat2N.id.
Qed.

Lemma Allocate_length n : length (Allocate n) ≤ n.
Proof.
  unfold Allocate, byte_count. rewrite length_replicate.
  assert ((((N.of_nat n * N.pos sizeof_T) mod 2 ^ 64) / N.pos sizeof_T)
          ≤ N.of_nat n)%N as Hle.
  { rewrite <- (N.div_mul (N.of_nat n) (N.pos sizeof_T)) at 2 by done.
    apply N.Div0.div_le_mono. apply N.Div0.mod_le. }
  lia.
Qed.

Lemma Deallocate_Allocate n : Deallocate (Allocate n) = [].
Proof. apply Deallocate_raw. Qed.

Lemma allocatable_le n m : n ≤ m → allocatable m → allocatable n.
Proof.
  unfold allocatable. intros Hle Hm.
  eapply N.le_lt_trans; [|exact Hm]. apply N.mul_le_mono_r. lia.
Qed.

Lemma allocatable_0 : allocatable 0.
Proof. done. Qed.

Lemma offset_int_of pos : fits_int pos → offset (int_of pos) = Some pos.
Proof.
  unfold fits_int, offset, int_of. intros Hpos.
  rewrite Z.mod_small by lia.
  rewrite decide_True by lia. f_equal. lia.
Qed.

Lemma offset_int_of_le pos i : offset (int_of pos) = Some i → i ≤ pos.
Proof.
  unfold offset, int_of. case_decide as Hi; [|done]. intros [= <-].
  assert ((Z.of_nat pos + 2 ^ 31) mod 2 ^ 32 ≤ Z.of_nat pos + 2 ^ 31)%Z
    by (apply Z.mod_le; lia).
  lia.
Qed.

Lemma invariant_mk xs c : length xs ≤ c → allocatable c → invariant (mk xs c).
Proof.
  intros Hle Hal. unfold invariant, mk. simpl.
  split_and!.
  - rewrite length_app, length_fmap, length_replicate. lia.
  - done.
  - done.
  - intros i Hi. destruct (lookup_lt_is_Some_2 xs i Hi) as [x Hx].
    exists x. rewrite lookup_app_l by (by rewrite length_fmap).
    by rewrite list_lookup_fmap, Hx.
  - intros i [Hi1 Hi2].
    rewrite lookup_app_r by (by rewrite length_fmap).
    rewrite length_fmap. apply lookup_replicate_2. lia.
Qed.

Lemma live_prefix_raw_suffix (n : nat) : ∀ (b : list (slot T)),
  n ≤ length b →
  (∀ i, i < n → ∃ x, b !! i = Some (Live x)) →
  (∀ i, n ≤ i < length b → b !! i = Some Raw) →
  ∃ xs, length xs = n ∧ b = (Live <$> xs) ++ replicate (length b - n) Raw.
Proof.
  induction n as [|n IH]; intros b Hle Hlive Hraw.
  - exists []. split; [done|]. simpl. rewrite Nat.sub_0_r.
    symmetry. apply replicate_as_Forall. split; [done|].
    apply Forall_lookup. intros i s Hs.
    assert (i < length b) as Hi by (eapply lookup_lt_Some; eauto).
    rewrite Hraw in Hs by lia. congruence.
  - destruct b as [|s b]; [simpl in Hle; lia|].
    destruct (Hlive 0) as [x Hx]; [lia|]. simpl in Hx. injection Hx as ->.
    destruct (IH b) as (xs & Hlen & Hb).
    + simpl in Hle. lia.
    + intros i Hi. apply (Hlive (S i)). lia.
    + intros i Hi. apply (Hraw (S i)). simpl. lia.
    + exists (x :: xs). split; [simpl; lia|].
      simpl. f_equal. exact Hb.
Qed.

Lemma invariant_is_mk v :
  invariant v → ∃ xs c, length xs ≤ c ∧ allocatable c ∧ v = mk xs c.
Proof.
  destruct v as [[b c] n]. unfold invariant. simpl.
  intros (Hlen & Hal & Hle & Hlive & Hraw). subst c.
  destruct (live_prefix_raw_suffix n b Hle Hlive Hraw) as (xs & Hn & Hb).
  exists xs, (length b). split_and!; [lia|done|].
  unfold mk. subst n. by rewrite <- Hb.
Qed.

Lemma invariant_iff_mk v :
  invariant v ↔ ∃ xs c, length xs ≤ c ∧ allocatable c ∧ v = mk xs c.
Proof.
  split; [apply invariant_is_mk|].
  intros (xs & c & Hle & Hal & ->). by apply invariant_mk.
Qed.

Lemma invariant_allocatable v : invariant v → allocatable (Capacity v).
Proof. by intros (_ & Hal & _). Qed.

Lemma invariant_mk_elements v :
  invariant v → v = mk (elements v) (Capacity v) ∧ length (elements v) = Size v
                ∧ Size v ≤ Capacity v.
Proof.
  intros (xs & c & Hle & _ & ->)%invariant_is_mk.
  by rewrite elements_mk, Capacity_mk, Size_mk.
Qed.

End Representation.

(** ** The methods on well-formed vectors *)

Section Methods.
Context {T : Type} `{Element T}.
Implicit Types (xs ys : list T) (v : Vector T).

Lemma replicate_split (k n : nat) (s : slot T) :
  k ≤ n → replicate n s = replicate k s ++ replicate (n - k) s.
Proof. intros Hle. rewrite <- replicate_add. f_equal. lia. Qed.

Lemma construct_at_replicate (i k : nat) (x : T) :
  i < k →
  construct_at (replicate k Raw) i x
  = Some (replicate i Raw ++ Live x :: replicate (k - S i) Raw).
Proof.
  intros Hlt.
  rewrite (replicate_split (S i) k) by lia.
  rewrite replicate_S_end, <- app_assoc. simpl.
  pose proof (construct_at_run_head (replicate i Raw) Raw (replicate (k - S i) Raw) x) as Hc.
  by rewrite length_replicate in Hc.
Qed.

Lemma relocation_ok_app by_move xs ys :
  relocation_ok by_move (xs ++ ys) ↔ relocation_ok by_move xs ∧ relocation_ok by_move ys.
Proof. apply Forall_app. Qed.

Lemma nothrow_relocation_ok by_move xs :
  Forall nothrow xs → relocation_ok by_move xs.
Proof.
  intros Hall. eapply Forall_impl; [exact Hall|].
  intros x [Hc Hm]. by destruct by_move.
Qed.

Lemma relocate_n_run by_move ys spre spost dpre mid dpost :
  relocation_ok by_move ys →
  length mid = length ys →
  relocate_n by_move (spre ++ (Live <$> ys) ++ spost) (length spre) (length ys)
    (dpre ++ mid ++ dpost) (length dpre)
  = Done (spre ++ (Live <$> (if by_move then moved_from <$> ys else ys)) ++ spost,
          dpre ++ (Live <$> ys) ++ dpost).
Proof.
  intros Hok Hlen. unfold relocate_n. destruct by_move.
  - by rewrite uninitialized_move_n_run.
  - by rewrite uninitialized_copy_n_run.
Qed.

Lemma relocate_n_front by_move ys spost mid dpost :
  relocation_ok by_move ys →
  length mid = length ys →
  relocate_n by_move ((Live <$> ys) ++ spost) 0 (length ys) (mid ++ dpost) 0
  = Done ((Live <$> (if by_move then moved_from <$> ys else ys)) ++ spost,
          (Live <$> ys) ++ dpost).
Proof. apply (relocate_n_run by_move ys [] spost [] mid dpost). Qed.

Lemma destroy_n_front ys post (n : nat) :
  n = length ys →
  destroy_n ((Live <$> ys) ++ post) 0 n = Some (replicate n Raw ++ post).
Proof. intros ->. apply (DestroyN_run ys [] post). Qed.

Lemma length_source_after (by_move : bool) xs :
  length (if by_move then moved_from <$> xs else xs) = length xs.
Proof. destruct by_move; [apply length_fmap|done]. Qed.

Lemma Reserve_noop n xs c :
  n ≤ c → Reserve n (mk xs c) = Ok tt (stay (mk xs c)).
Proof. intros Hle. unfold Reserve. simpl. by rewrite decide_True. Qed.

Lemma Reserve_mk n xs c :
  length xs ≤ c → c < n → allocatable n →
  relocation_ok (is_nothrow_move_constructible || negb is_copy_constructible) xs →
  Reserve n (mk xs c) = Ok tt (stay (mk xs n)).
Proof.
  intros Hle Hlt Hal Hok. unfold Reserve. simpl.
  rewrite decide_False by lia.
  rewrite Allocate_fits by done. rewrite (replicate_split (length xs) n) by lia.
  rewrite relocate_n_front by (done || by rewrite length_replicate).
  rewrite destroy_n_front by (by rewrite length_source_after).
  simpl. rewrite Deallocate_app, !Deallocate_raw. done.
Qed.

Lemma EmplaceBack_mk args x xs c :
  length xs ≤ c →
  allocatable (capacity_after_insert (length xs) c) →
  construct args = inr x →
  (length xs = c →
   relocation_ok (is_nothrow_move_constructible || negb is_nothrow_copy_constructible) xs) →
  EmplaceBack args (mk xs c)
  = Ok (length xs) (stay (mk (xs ++ [x]) (capacity_after_insert (length xs) c))).
Proof.
  intros Hle Hal Hx Hok. revert Hal.
  unfold EmplaceBack, capacity_after_insert, Capacity. simpl. intros Hal.
  rewrite Hx.
  assert (mk_snoc : ∀ k, (Live <$> xs) ++ Live x :: replicate (k - S (length xs)) Raw
            = (Live <$> xs ++ [x]) ++ replicate (k - length (xs ++ [x])) Raw).
  { intros k. by rewrite fmap_app, length_snoc, <- app_assoc. }
  case_decide as Hfull.
  - specialize (Hok Hfull).
    set (k := if decide (length xs = 0) then 1 else length xs * 2).
    assert (length xs < k) as Hk by (unfold k; case_decide; lia).
    rewrite Allocate_fits by done. rewrite construct_at_replicate by done.
    rewrite relocate_n_front by (done || by rewrite length_replicate).
    rewrite destroy_n_front by (by rewrite length_source_after).
    simpl. unfold RawMemory_index. simpl.
    rewrite decide_True by lia.
    rewrite Nat.sub_0_r.
    rewrite Deallocate_app, !Deallocate_raw.
    unfold stay, mk. simpl. by rewrite mk_snoc, length_snoc.
  - destruct (c - length xs) as [|j] eqn:Hj; [lia|].
    simpl.
    pose proof (construct_at_run_head (Live <$> xs) Raw (replicate j Raw) x) as Hc.
    rewrite length_fmap in Hc. rewrite Hc.
    unfold RawMemory_index, with_buffer. simpl.
    rewrite decide_True by lia.
    rewrite Nat.sub_0_r.
    unfold stay, mk. simpl.
    rewrite fmap_app, length_snoc, <- app_assoc. simpl.
    replace (c - S (length xs)) with j by lia. done.
Qed.

Lemma PopBack_empty c : PopBack (mk (@nil T) c) = Ok tt (stay (mk [] c)).
Proof. done. Qed.

Lemma PopBack_mk xs x c :
  length xs < c → PopBack (mk (xs ++ [x]) c) = Ok tt (stay (mk xs c)).
Proof.
  intros Hlt. unfold PopBack. simpl.
  rewrite length_snoc. simpl.
  rewrite decide_True by lia.
  rewrite Nat.sub_0_r, fmap_app, <- app_assoc. simpl.
  pose proof (Destroy_run_head (Live <$> xs) x (replicate (c - S (length xs)) Raw)) as Hd.
  rewrite length_fmap in Hd. rewrite Hd.
  unfold stay, mk, with_buffer. simpl.
  replace (c - length xs) with (S (c - S (length xs))) by lia.
  done.
Qed.

Lemma Vector_copy_ctor_mk xs c :
  allocatable (length xs) →
  Forall (λ x, copy_throws x = None) xs →
  Vector_copy_ctor (mk xs c) = Ok (mk xs (length xs)) [].
Proof.
  intros Hal Hok. unfold Vector_copy_ctor. simpl.
  rewrite Allocate_fits by done.
  rewrite <- (app_nil_r (replicate (length xs) Raw)).
  pose proof (uninitialized_copy_n_run xs [] (replicate (c - length xs) Raw) []
                (replicate (length xs) Raw) []) as Hrun.
  simpl in Hrun. rewrite Hrun by (done || by rewrite length_replicate).
  unfold mk, with_buffer. simpl. by rewrite Nat.sub_diag.
Qed.

End Methods.

(** ** A constructor that throws during relocation *)

Section Failure.
Context {T : Type} `{Element T}.
Implicit Types (xs ys : list T) (v : Vector T).

Lemma uninitialized_copy_loop_raise ys1 y ys2 e : ∀ spre spost dpre mid dpost,
  Forall (λ x, copy_throws x = None) ys1 →
  copy_throws y = Some e →
  length mid = length ys1 →
  uninitialized_copy_loop (spre ++ (Live <$> ys1 ++ y :: ys2) ++ spost) (length spre)
    (length (ys1 ++ y :: ys2)) (dpre ++ mid ++ dpost) (length dpre)
  = Raised e (dpre ++ (Live <$> ys1) ++ dpost, length dpre + length ys1).
Proof.
  induction ys1 as [|z ys1 IH]; intros spre spost dpre mid dpost Hok Hy Hlen.
  - destruct mid; [|done].
    cbn [fmap list_fmap length uninitialized_copy_loop app].
    rewrite lookup_run_head, Hy. by rewrite Nat.add_0_r.
  - destruct mid as [|m mid]; [done|].
    inversion Hok as [|? ? Hz Hys]; subst.
    cbn [fmap list_fmap length uninitialized_copy_loop app].
    rewrite lookup_run_head, Hz, construct_at_run_head.
    rewrite (snoc_app spre), (snoc_app dpre (Live z)).
    rewrite <- (length_snoc spre (Live z)), <- (length_snoc dpre (Live z)).
    rewrite (IH _ _ _ mid) by (done || (simpl in Hlen; lia)).
    rewrite <- app_assoc, length_snoc. simpl. do 2 f_equal. lia.
Qed.

Lemma uninitialized_copy_n_raise ys1 y ys2 e spre spost dpre mid dpost :
  Forall (λ x, copy_throws x = None) ys1 →
  copy_throws y = Some e →
  length mid = length ys1 →
  uninitialized_copy_n (spre ++ (Live <$> ys1 ++ y :: ys2) ++ spost) (length spre)
    (length (ys1 ++ y :: ys2)) (dpre ++ mid ++ dpost) (length dpre)
  = Raised e (dpre ++ replicate (length ys1) Raw ++ dpost).
Proof.
  intros Hok Hy Hlen. unfold uninitialized_copy_n.
  rewrite (uninitialized_copy_loop_raise ys1 y ys2 e) by done.
  replace (length dpre + length ys1 - length dpre) with (length ys1) by lia.
  unfold destroy_n. by rewrite DestroyN_run.
Qed.

Lemma uninitialized_move_loop_raise ys1 y ys2 e : ∀ spre spost dpre mid dpost,
  Forall (λ x, move_throws x = None) ys1 →
  move_throws y = Some e →
  length mid = length ys1 →
  uninitialized_move_loop (spre ++ (Live <$> ys1 ++ y :: ys2) ++ spost) (length spre)
    (length (ys1 ++ y :: ys2)) (dpre ++ mid ++ dpost) (length dpre)
  = Raised e (spre ++ (Live <$> (moved_from <$> ys1) ++ y :: ys2) ++ spost,
              dpre ++ (Live <$> ys1) ++ dpost, length dpre + length ys1).
Proof.
  induction ys1 as [|z ys1 IH]; intros spre spost dpre mid dpost Hok Hy Hlen.
  - destruct mid; [|done].
    cbn [fmap list_fmap length uninitialized_move_loop app].
    rewrite lookup_run_head, Hy. by rewrite Nat.add_0_r.
  - destruct mid as [|m mid]; [done|].
    inversion Hok as [|? ? Hz Hys]; subst.
    cbn [fmap list_fmap length uninitialized_move_loop app].
    rewrite lookup_run_head, Hz, construct_at_run_head, insert_run_head.
    rewrite (snoc_app spre), (snoc_app dpre (Live z)).
    rewrite <- (length_snoc spre (Live (moved_from z))), <- (length_snoc dpre (Live z)).
    rewrite (IH _ _ _ mid) by (done || (simpl in Hlen; lia)).
    rewrite <- !app_assoc, length_snoc. simpl. do 2 f_equal. lia.
Qed.

Lemma uninitialized_move_n_raise ys1 y ys2 e spre spost dpre mid dpost :
  Forall (λ x, move_throws x = None) ys1 →
  move_throws y = Some e →
  length mid = length ys1 →
  uninitialized_move_n (spre ++ (Live <$> ys1 ++ y :: ys2) ++ spost) (length spre)
    (length (ys1 ++ y :: ys2)) (dpre ++ mid ++ dpost) (length dpre)
  = Raised e (spre ++ (Live <$> (moved_from <$> ys1) ++ y :: ys2) ++ spost,
              dpre ++ replicate (length ys1) Raw ++ dpost).
Proof.
  intros Hok Hy Hlen. unfold uninitialized_move_n.
  rewrite (uninitialized_move_loop_raise ys1 y ys2 e) by done.
  replace (length dpre + length ys1 - length dpre) with (length ys1) by lia.
  unfold destroy_n. by rewrite DestroyN_run.
Qed.

Lemma relocate_n_raise by_move ys1 y ys2 e spost mid dpost :
  relocation_ok by_move ys1 →
  (if by_move then move_throws y else copy_throws y) = Some e →
  length mid = length ys1 →
  relocate_n by_move ((Live <$> ys1 ++ y :: ys2) ++ spost) 0
    (length (ys1 ++ y :: ys2)) (mid ++ dpost) 0
  = Raised e ((Live <$> (if by_move then moved_from <$> ys1 else ys1) ++ y :: ys2) ++ spost,
              replicate (length ys1) Raw ++ dpost).
Proof.
  intros Hok Hy Hlen. unfold relocate_n. destruct by_move.
  - by apply (uninitialized_move_n_raise ys1 y ys2 e [] spost [] mid dpost).
  - pose proof (uninitialized_copy_n_raise ys1 y ys2 e [] spost [] mid dpost Hok Hy Hlen)
      as Hraise.
    simpl in Hraise. simpl. by rewrite Hraise.
Qed.

Lemma Reserve_raise n xs1 y xs2 e c :
  let by_move := is_nothrow_move_constructible || negb is_copy_constructible in
  length (xs1 ++ y :: xs2) ≤ c → c < n → allocatable n →
  relocation_ok by_move xs1 →
  (if by_move then move_throws y else copy_throws y) = Some e →
  Reserve n (mk (xs1 ++ y :: xs2) c)
  = Throw e (stay (mk ((if by_move then moved_from <$> xs1 else xs1) ++ y :: xs2) c)).
Proof.
  intros by_move Hle Hlt Hal Hok Hy. unfold Reserve.
  cbn [mk data_ size_ buffer_ capacity_ RawMemory_Capacity RawMemory_new].
  rewrite decide_False by lia.
  fold by_move.
  assert (length xs1 ≤ n) as Hn by (rewrite length_app in Hle; lia).
  rewrite Allocate_fits by done. rewrite (replicate_split (length xs1) n) by lia.
  rewrite (relocate_n_raise by_move xs1 y xs2 e)
    by (done || by rewrite length_replicate).
  rewrite Deallocate_app, !Deallocate_raw.
  unfold stay, with_data, with_buffer, mk. cbn [data_ size_ buffer_ capacity_ app].
  assert (length ((if by_move then moved_from <$> xs1 else xs1) ++ y :: xs2)
          = length (xs1 ++ y :: xs2)) as ->.
  { rewrite !length_app. by rewrite length_source_after. }
  done.
Qed.

Lemma first_throw (throws : T → option exn) xs :
  Forall (λ x, throws x = None) xs ∨
  ∃ xs1 y xs2 e, xs = xs1 ++ y :: xs2 ∧ Forall (λ x, throws x = None) xs1 ∧
                 throws y = Some e.
Proof.
  induction xs as [|x xs IH]; [by left|].
  destruct (throws x) as [e|] eqn:Hx.
  - right. exists [], x, xs, e. by split_and!.
  - destruct IH as [Hok|(xs1 & y & xs2 & e & -> & Hok & Hy)].
    + left. by constructor.
    + right. exists (x :: xs1), y, xs2, e. split_and!; try done. by constructor.
Qed.

Lemma Vector_copy_ctor_raise xs1 y xs2 e c :
  allocatable (length (xs1 ++ y :: xs2)) →
  Forall (λ x, copy_throws x = None) xs1 →
  copy_throws y = Some e →
  Vector_copy_ctor (mk (xs1 ++ y :: xs2) c) = Throw e [].
Proof.
  intros Hal Hok Hy. unfold Vector_copy_ctor.
  cbn [mk data_ size_ buffer_ RawMemory_new].
  rewrite Allocate_fits by done.
  rewrite (replicate_split (length xs1) (length (xs1 ++ y :: xs2)))
    by (rewrite length_app; lia).
  pose proof (uninitialized_copy_n_raise xs1 y xs2 e []
                (replicate (c - length (xs1 ++ y :: xs2)) Raw) []
                (replicate (length xs1) Raw)
                (replicate (length (xs1 ++ y :: xs2) - length xs1) Raw) Hok Hy) as Hr.
  cbn [app length] in Hr. rewrite Hr by (by rewrite length_replicate).
  by rewrite Deallocate_app, !Deallocate_raw.
Qed.

Lemma EmplaceBack_raise args x xs1 y xs2 e :
  let by_move := is_nothrow_move_constructible || negb is_nothrow_copy_constructible in
  allocatable (length (xs1 ++ y :: xs2) * 2) →
  construct args = inr x →
  relocation_ok by_move xs1 →
  (if by_move then move_throws y else copy_throws y) = Some e →
  EmplaceBack args (mk (xs1 ++ y :: xs2) (length (xs1 ++ y :: xs2)))
  = Throw e {| self := mk ((if by_move then moved_from <$> xs1 else xs1) ++ y :: xs2)
                         (length (xs1 ++ y :: xs2));
               leaked := [x] |}.
Proof.
  intros by_move Hal Hx Hok Hy. unfold EmplaceBack, Capacity.
  cbn [mk data_ size_ buffer_ capacity_ RawMemory_Capacity RawMemory_new].
  rewrite decide_True by done. rewrite Hx. fold by_move.
  set (n := length (xs1 ++ y :: xs2)).
  set (k := if decide (n = 0) then 1 else n * 2).
  assert (length xs1 < n) as Hn by (unfold n; rewrite length_app; simpl; lia).
  assert (n < k) as Hk by (unfold k; case_decide; lia).
  assert (allocatable k) as Hal'
    by (unfold k; rewrite decide_False by lia; exact Hal).
  rewrite Allocate_fits by done. rewrite construct_at_replicate by done.
  rewrite (replicate_split (length xs1) n) by lia.
  rewrite <- app_assoc.
  unfold n at 1.
  rewrite (relocate_n_raise by_move xs1 y xs2 e)
    by (done || by rewrite length_replicate).
  rewrite !Deallocate_app, !Deallocate_raw.
  unfold with_data, with_buffer, mk. cbn [data_ size_ buffer_ capacity_ app].
  assert (length ((if by_move then moved_from <$> xs1 else xs1) ++ y :: xs2) = n) as ->.
  { unfold n. rewrite !length_app. by rewrite length_source_after. }
  rewrite Nat.sub_diag.
  change (Deallocate (Live x :: replicate (k - S n) Raw))
    with (x :: Deallocate (replicate (k - S n) (@Raw T))).
  rewrite Deallocate_raw. replace (n - n) with 0 by lia. reflexivity.
Qed.

End Failure.

(** ** PopBack, the copy constructor, Reserve and the appends *)

Section Contracts.
Context {T : Type} `{Element T}.
Implicit Types (xs ys : list T) (v : Vector T).

Lemma slot_after_size xs c i :
  length xs ≤ i < c → buffer_ (data_ (mk xs c)) !! i = Some Raw.
Proof.
  intros [Hi1 Hi2]. cbn [mk data_ buffer_].
  rewrite lookup_app_r by (by rewrite length_fmap).
  rewrite length_fmap. apply lookup_replicate_2. lia.
Qed.

Lemma slot_of_last xs x c :
  buffer_ (data_ (mk (xs ++ [x]) c)) !! length xs = Some (Live x).
Proof.
  simpl. rewrite fmap_app, <- app_assoc. simpl.
  pose proof (lookup_run_head (Live <$> xs) (Live x)
                (replicate (c - length (xs ++ [x])) Raw)) as Hl.
  by rewrite length_fmap in Hl.
Qed.

(** C9. [PopBack] on an empty vector returns normally and changes nothing;
    on a non-empty vector it returns normally, the former last slot is raw
    again (its object was destroyed), [size_] is one less, the capacity is
    the same and the other elements are untouched. *)
Theorem PopBack_spec v :
  invariant v →
  (Size v = 0 → PopBack v = Ok tt (stay v)) ∧
  (Size v ≠ 0 →
   ∃ v', PopBack v = Ok tt (stay v') ∧ invariant v' ∧
         Size v' = Size v - 1 ∧ Capacity v' = Capacity v ∧
         elements v' = removelast (elements v) ∧
         buffer_ (data_ v') !! (Size v - 1) = Some Raw).
Proof.
  intros (xs & c & Hle & Hal_c & ->)%invariant_is_mk.
  rewrite Size_mk, Capacity_mk, elements_mk. split.
  - intros Hlen. destruct xs; [|done]. apply PopBack_empty.
  - intros Hlen. destruct xs as [|x xs _] using rev_ind; [done|].
    rewrite length_snoc in Hle, Hlen |- *.
    exists (mk xs c). rewrite PopBack_mk by lia.
    rewrite Size_mk, Capacity_mk, elements_mk, removelast_last.
    split_and!; try done.
    + apply invariant_mk; [lia|done].
    + lia.
    + apply slot_after_size. lia.
Qed.

(** C10. The copy constructor produces, whenever it returns, a vector
    with the source's size, a capacity equal to the source's size
    (whatever the source's capacity) and the source's element sequence;
    and it returns when the copy constructor of [T] throws on none of the
    source's elements. *)
Theorem Vector_copy_ctor_spec v :
  invariant v →
  (Forall (λ x, copy_throws x = None) (elements v) →
   ∃ b, Vector_copy_ctor v = Ok b []) ∧
  (∀ b l, Vector_copy_ctor v = Ok b l →
          invariant b ∧ Size b = Size v ∧ Capacity b = Size v ∧
          elements b = elements v).
Proof.
  intros (xs & c & Hle & Hal_c & ->)%invariant_is_mk.
  rewrite Size_mk, elements_mk.
  assert (allocatable (length xs)) as Hal by (by apply (allocatable_le _ c)).
  split.
  - intros Hok. exists (mk xs (length xs)). by apply Vector_copy_ctor_mk.
  - intros b l.
    destruct (first_throw copy_throws xs) as [Hok|(xs1 & y & xs2 & e & -> & Hok & Hy)].
    + rewrite Vector_copy_ctor_mk by done. intros [= <- _].
      rewrite Size_mk, Capacity_mk, elements_mk.
      split_and!; try done. by apply invariant_mk.
    + by rewrite (Vector_copy_ctor_raise xs1 y xs2 e).
Qed.

(** C8 (amended). [Reserve(new_capacity)] returns at once, changing
    nothing, when [new_capacity <= Capacity()].  Otherwise, for a
    [new_capacity] whose byte count [new_capacity * sizeof(T)] is a
    [size_t] value, it either returns or throws.  It returns when the
    constructor that relocates does not throw, and then the vector is in a
    block of exactly [new_capacity] slots with the size and the element
    sequence it had.  It throws when that constructor throws, and then
    size and capacity are what they were, nothing leaks, and the element
    sequence is what it was if the relocation copies; if it moves, the
    elements moved before the failure are left in their moved-from
    state. *)
Theorem Reserve_spec new_capacity v :
  let by_move := is_nothrow_move_constructible || negb is_copy_constructible in
  invariant v →
  allocatable new_capacity →
  (new_capacity ≤ Capacity v → Reserve new_capacity v = Ok tt (stay v)) ∧
  (Capacity v < new_capacity →
   relocation_ok by_move (elements v) →
   Reserve new_capacity v = Ok tt (stay (mk (elements v) new_capacity))) ∧
  (Capacity v < new_capacity →
   ∀ xs1 y xs2 e,
     elements v = xs1 ++ y :: xs2 →
     relocation_ok by_move xs1 →
     (if by_move then move_throws y else copy_throws y) = Some e →
     Reserve new_capacity v
     = Throw e (stay (mk ((if by_move then moved_from <$> xs1 else xs1) ++ y :: xs2)
                        (Capacity v)))) ∧
  (∀ p, Reserve new_capacity v = Ok tt p →
        invariant (self p) ∧ Size (self p) = Size v ∧
        elements (self p) = elements v ∧ leaked p = [] ∧
        (Capacity v < new_capacity → Capacity (self p) = new_capacity)) ∧
  (∀ e p, Reserve new_capacity v = Throw e p →
          invariant (self p) ∧ Size (self p) = Size v ∧
          Capacity (self p) = Capacity v ∧ leaked p = [] ∧
          (by_move = false → self p = v) ∧
          ∃ xs1 y xs2,
            elements v = xs1 ++ y :: xs2 ∧
            (if by_move then move_throws y else copy_throws y) = Some e ∧
            elements (self p)
            = (if by_move then moved_from <$> xs1 else xs1) ++ y :: xs2) ∧
  Reserve new_capacity v ≠ Terminate ∧ Reserve new_capacity v ≠ Undefined.
Proof.
  intros by_move (xs & c & Hle & Hal_c & ->)%invariant_is_mk Hal.
  rewrite Size_mk, Capacity_mk, elements_mk.
  assert (∀ xs1 y xs2,
            length ((if by_move then moved_from <$> xs1 else xs1) ++ y :: xs2)
            = length (xs1 ++ y :: xs2)) as Hlen.
  { intros xs1 y xs2. rewrite !length_app. by rewrite length_source_after. }
  destruct (decide (new_capacity ≤ c)) as [Hn|Hn].
  { rewrite Reserve_noop by done.
    split_and!; try done; try (intros; lia).
    intros p [= <-]. cbn [self leaked stay]. rewrite Size_mk, elements_mk.
    split_and!; try done; [by apply invariant_mk|lia]. }
  split_and!; [intros; lia|intros _ Hok; apply Reserve_mk; (done || lia)| | ..].
  { intros _ xs1 y xs2 e -> Hok Hy.
    by rewrite (Reserve_raise new_capacity xs1 y xs2 e) by (done || lia). }
  all: destruct (first_throw (λ x, if by_move then move_throws x else copy_throws x) xs)
         as [Hok|(xs1 & y & xs2 & e' & -> & Hok & Hy)];
    [rewrite Reserve_mk by (done || lia)
    |rewrite (Reserve_raise new_capacity xs1 y xs2 e') by (done || lia); fold by_move];
    try done.
  - intros p [= <-]. cbn [self leaked stay].
    rewrite Size_mk, Capacity_mk, elements_mk.
    split_and!; try done. apply invariant_mk; [lia|done].
  - intros e p [= <- <-]. cbn [self leaked stay].
    rewrite Size_mk, Capacity_mk, elements_mk.
    split_and!; try done.
    + apply invariant_mk; [rewrite Hlen; lia|done].
    + by intros ->.
    + by exists xs1, y, xs2.
Qed.

Lemma capacity_after_insert_gt size capacity :
  size ≤ capacity → size < capacity_after_insert size capacity.
Proof.
  intros Hle. unfold capacity_after_insert. repeat case_decide; lia.
Qed.

Lemma capacity_after_insert_ge xs (x : T) c :
  length xs ≤ c → length (xs ++ [x]) ≤ capacity_after_insert (length xs) c.
Proof.
  intros Hle. rewrite length_snoc. by apply capacity_after_insert_gt.
Qed.

Lemma capacity_after_insert_le size capacity :
  size ≤ capacity → capacity ≤ capacity_after_insert size capacity.
Proof.
  intros Hle. unfold capacity_after_insert. repeat case_decide; lia.
Qed.

Lemma capacity_after_appends_le n : ∀ size capacity,
  size ≤ capacity →
  size + n ≤ capacity_after_appends n size capacity ∧
  capacity ≤ capacity_after_appends n size capacity.
Proof.
  induction n as [|n IH]; intros size capacity Hle; [simpl; lia|].
  cbn [capacity_after_appends].
  pose proof (capacity_after_insert_gt size capacity Hle) as Hgt.
  pose proof (capacity_after_insert_le size capacity Hle) as Hge.
  destruct (IH (S size) (capacity_after_insert size capacity)); lia.
Qed.

Lemma EmplaceBack_construct_throws args e v :
  construct args = inl e → EmplaceBack args v = Throw e (stay v).
Proof.
  intros He. unfold EmplaceBack. rewrite He. case_decide; [|done].
  cbn [RawMemory_new buffer_]. by rewrite Deallocate_Allocate.
Qed.

Lemma PushBack_mk x xs c :
  length xs ≤ c → allocatable (capacity_after_insert (length xs) c) →
  Forall nothrow (xs ++ [x]) →
  PushBack x (mk xs c)
  = Ok tt (stay (mk (xs ++ [x]) (capacity_after_insert (length xs) c))).
Proof.
  intros Hle Hal [Hxs Hx]%Forall_app.
  apply Forall_singleton in Hx as [Hcopy _].
  unfold PushBack.
  rewrite (EmplaceBack_mk _ x); try done.
  - simpl. by rewrite Hcopy.
  - intros _. by apply nothrow_relocation_ok.
Qed.

Lemma PushBack_rvalue_mk x xs c :
  length xs ≤ c → allocatable (capacity_after_insert (length xs) c) →
  Forall nothrow (xs ++ [x]) →
  PushBack_rvalue x (mk xs c)
  = Ok tt (stay (mk (xs ++ [x]) (capacity_after_insert (length xs) c))).
Proof.
  intros Hle Hal [Hxs Hx]%Forall_app.
  apply Forall_singleton in Hx as [_ Hmove].
  unfold PushBack_rvalue.
  rewrite (EmplaceBack_mk _ x); try done.
  - simpl. by rewrite Hmove.
  - intros _. by apply nothrow_relocation_ok.
Qed.

Lemma PushBack_each_mk values : ∀ xs c,
  length xs ≤ c →
  allocatable (capacity_after_appends (length values) (length xs) c) →
  Forall nothrow (xs ++ values) →
  PushBack_each values (mk xs c)
  = Ok tt (stay (mk (xs ++ values)
                    (capacity_after_appends (length values) (length xs) c))).
Proof.
  induction values as [|y values IH]; intros xs c Hle Hal Hok.
  - by rewrite app_nil_r.
  - rewrite snoc_app in Hok.
    pose proof Hok as [Hxy _]%Forall_app.
    cbn [length capacity_after_appends] in Hal |- *.
    pose proof (capacity_after_insert_gt (length xs) c Hle) as Hgt.
    assert (allocatable (capacity_after_insert (length xs) c)) as Hal1.
    { eapply allocatable_le; [|exact Hal].
      apply (capacity_after_appends_le (length values) (S (length xs))). lia. }
    cbn [PushBack_each]. rewrite PushBack_mk by done.
    cbn [self stay].
    rewrite <- (length_snoc xs y) in Hal |- *.
    rewrite IH by (done || rewrite length_snoc; lia).
    by rewrite <- snoc_app.
Qed.

Lemma construct_ByConstRef (value x : T) :
  construct (ByConstRef value) = inr x → x = value.
Proof. simpl. destruct (copy_throws value); congruence. Qed.

Lemma EmplaceBack_returns args xs c r p :
  length xs ≤ c → allocatable (capacity_after_insert (length xs) c) →
  EmplaceBack args (mk xs c) = Ok r p →
  ∃ x, construct args = inr x ∧ r = length xs ∧
       p = stay (mk (xs ++ [x]) (capacity_after_insert (length xs) c)).
Proof.
  intros Hle Hal. destruct (construct args) as [e|x] eqn:Hargs.
  { unfold EmplaceBack. rewrite Hargs. by case_decide. }
  destruct (decide (length xs = c)) as [Hfull|Hspare].
  - destruct (first_throw
                (λ x, if is_nothrow_move_constructible
                         || negb is_nothrow_copy_constructible
                      then move_throws x else copy_throws x) xs)
      as [Hok|(xs1 & y & xs2 & e & -> & Hok & Hy)].
    + rewrite (EmplaceBack_mk args x) by done. intros [= <- <-]. by exists x.
    + subst c. rewrite (EmplaceBack_raise args x xs1 y xs2 e); try done.
      revert Hal. unfold capacity_after_insert.
      rewrite decide_True by done.
      rewrite decide_False; [done|]. rewrite length_app. simpl. lia.
  - rewrite (EmplaceBack_mk args x) by done. intros [= <- <-]. by exists x.
Qed.

Lemma PushBack_each_returns values : ∀ xs c p,
  length xs ≤ c →
  allocatable (capacity_after_appends (length values) (length xs) c) →
  PushBack_each values (mk xs c) = Ok tt p →
  p = stay (mk (xs ++ values) (capacity_after_appends (length values) (length xs) c)).
Proof.
  induction values as [|y values IH]; intros xs c p Hle Hal.
  - intros [= <-]. by rewrite app_nil_r.
  - cbn [length capacity_after_appends] in Hal |- *.
    pose proof (capacity_after_insert_gt (length xs) c Hle) as Hgt.
    assert (allocatable (capacity_after_insert (length xs) c)) as Hal1.
    { eapply allocatable_le; [|exact Hal].
      apply (capacity_after_appends_le (length values) (S (length xs))). lia. }
    cbn [PushBack_each]. unfold PushBack.
    destruct (EmplaceBack (ByConstRef y) (mk xs c)) as [r q|e q| |] eqn:Hrun; try done.
    destruct (EmplaceBack_returns _ _ _ _ _ Hle Hal1 Hrun)
      as (x & Hx%construct_ByConstRef & _ & ->).
    subst x. cbn [self leaked stay].
    destruct (PushBack_each values _) as [[] q'|e q'| |] eqn:Hrest; try done.
    intros [= <-].
    rewrite <- (length_snoc xs y) in Hal |- *.
    apply IH in Hrest; [|rewrite length_snoc; lia|done].
    subst q'. cbn [self leaked stay app]. by rewrite <- snoc_app.
Qed.

End Contracts.

(** ** The insertion that does not reallocate *)

Section StrongGuarantee.
Context {T : Type} `{Element T}.
Implicit Types (xs ys : list T) (v : Vector T).

(** [Emplace] without reallocation, on a vector that is not empty:
    [data_[size_]] is the first raw slot, and the move constructor reads
    it. *)
Lemma Emplace_in_place_reads_raw index args x v :
  invariant v → Size v ≠ 0 → Size v < Capacity v → index ≤ Size v →
  construct args = inr x →
  Emplace index args v = Undefined.
Proof.
  intros (xs & c & Hle & Hal_c & ->)%invariant_is_mk.
  rewrite Size_mk, Capacity_mk. intros Hne Hlt Hidx Hx.
  unfold Emplace, Capacity.
  cbn [mk data_ size_ capacity_ RawMemory_Capacity].
  rewrite decide_True by done.
  rewrite decide_False by lia.
  rewrite decide_True by done.
  rewrite Hx. unfold RawMemory_index. cbn [capacity_].
  rewrite decide_True by done.
  pose proof (slot_after_size xs c (length xs)) as Hraw.
  cbn [mk data_ buffer_] in Hraw |- *. by rewrite Hraw by lia.
Qed.

End StrongGuarantee.

Section MoveSemantics.
Context {T : Type} `{Element T}.
Implicit Types (xs ys : list T) (v : Vector T).


Lemma RawMemory_move_assign_eq (this rhs : RawMemory T) :
  RawMemory_move_assign this rhs = (rhs, this).
Proof. by destruct this, rhs. Qed.

Lemma Vector_move_ctor_eq v : Vector_move_ctor v = (v, Vector_default).
Proof. by destruct v as [[b c] n]. Qed.

Lemma Swap_eq (this other : Vector T) : Swap this other = (other, this).
Proof. by destruct this as [[b c] n], other as [[b' c'] n']. Qed.

Lemma Vector_move_assign_mk xs c ys d :
  length xs ≤ c → length ys ≤ d → allocatable c →
  (d < length xs →
   relocation_ok (is_nothrow_move_constructible || negb is_copy_constructible) ys) →
  Vector_move_assign (mk ys d) (mk xs c)
  = Ok tt (stay (mk xs c), mk ys (d `max` length xs)).
Proof.
  intros Hxs Hys Hal Hok. unfold Vector_move_assign.
  cbn [mk data_ size_ capacity_ RawMemory_Capacity].
  case_decide as Hlt.
  - fold (mk ys d).
    rewrite Reserve_mk by (auto || by apply (allocatable_le _ c)).
    cbn [self leaked stay]. rewrite Swap_eq.
    by rewrite Nat.max_r by lia.
  - fold (mk ys d) (mk xs c). rewrite Swap_eq.
    by rewrite Nat.max_l by lia.
Qed.



End MoveSemantics.

(** ** Insertion with reallocation, erasure, and the round trip *)

Section InsertErase.
Context {T : Type} `{Element T}.
Implicit Types (xs ys : list T) (v : Vector T).

Lemma move_assign_at_run pre a y post :
  move_assign_at (pre ++ Live a :: Live y :: post) (S (length pre)) (length pre)
  = Some (pre ++ Live y :: Live (moved_from y) :: post).
Proof.
  unfold move_assign_at.
  pose proof (lookup_run_head (pre ++ [Live a]) (Live y) post) as Hs.
  pose proof (insert_run_head (pre ++ [Live a]) (Live y) (Live (moved_from y)) post) as Hi.
  rewrite length_snoc, <- snoc_app in Hs, Hi.
  rewrite Hs, lookup_run_head, Hi, <- snoc_app.
  by rewrite insert_run_head.
Qed.

Lemma move_loop_run ys : ∀ pre a post,
  ∃ z, move_loop (pre ++ Live a :: (Live <$> ys) ++ post) (S (length pre))
         (length ys) (length pre)
       = Some (pre ++ (Live <$> ys) ++ Live z :: post).
Proof.
  induction ys as [|y ys IH]; intros pre a post.
  - exists a. done.
  - cbn [fmap list_fmap length move_loop app].
    rewrite move_assign_at_run.
    destruct (IH (pre ++ [Live y]) (moved_from y) post) as [z Hz].
    exists z.
    rewrite (snoc_app pre (Live y)), <- (length_snoc pre (Live y)).
    rewrite Hz. by rewrite <- app_assoc.
Qed.

Lemma Erase_mk_split pos xs1 a xs2 c :
  length (xs1 ++ a :: xs2) ≤ c →
  pos < length (xs1 ++ a :: xs2) →
  offset (int_of pos) = Some (length xs1) →
  Erase pos (mk (xs1 ++ a :: xs2) c)
  = Ok (length xs1) (stay (mk (xs1 ++ xs2) c)).
Proof.
  intros Hle Hpos Hoff. rewrite length_app in Hle, Hpos. cbn [length] in Hle, Hpos.
  unfold Erase.
  assert (size_ (mk (xs1 ++ a :: xs2) c) = S (length xs1 + length xs2)) as Hsize.
  { simpl. rewrite length_app. simpl. lia. }
  rewrite Hsize. rewrite decide_True by lia. rewrite Hoff.
  unfold move_range. rewrite decide_True by lia.
  replace (S (length xs1 + length xs2) - (length xs1 + 1)) with (length xs2) by lia.
  replace (S (length xs1 + length xs2) - 1) with (length xs1 + length xs2) by lia.
  replace (length xs1 + 1) with (S (length xs1)) by lia.
  cbn [mk data_ buffer_ capacity_ size_].
  rewrite fmap_app, <- app_assoc. cbn [fmap list_fmap app].
  destruct (move_loop_run xs2 (Live <$> xs1) a
              (replicate (c - length (xs1 ++ a :: xs2)) Raw)) as [z Hz].
  rewrite length_fmap in Hz.
  rewrite Hz.
  pose proof (Destroy_run_head ((Live <$> xs1) ++ (Live <$> xs2)) z
                (replicate (c - length (xs1 ++ a :: xs2)) Raw)) as Hd.
  assert (length ((Live <$> xs1) ++ (Live <$> xs2)) = length xs1 + length xs2) as Hlen
    by (by rewrite length_app, !length_fmap).
  rewrite Hlen, <- app_assoc in Hd.
  rewrite Hd.
  unfold stay, mk, with_buffer. cbn [data_ buffer_ capacity_ size_].
  rewrite fmap_app, !length_app, <- app_assoc. cbn [length].
  replace (c - (length xs1 + length xs2))
    with (S (c - (length xs1 + S (length xs2)))) by lia.
  by rewrite <- app_assoc.
Qed.

Lemma split_at i xs :
  i < length xs →
  ∃ xs1 a xs2, xs = xs1 ++ a :: xs2 ∧ length xs1 = i ∧ delete i xs = xs1 ++ xs2.
Proof.
  intros Hi. destruct (lookup_lt_is_Some_2 xs i Hi) as [a Ha].
  exists (take i xs), a, (drop (S i) xs). split_and!.
  - by rewrite take_drop_middle.
  - rewrite length_take. lia.
  - apply delete_take_drop.
Qed.

(** [Erase] removes the element the [int] index addresses. *)
Lemma Erase_mk pos i xs c :
  pos < length xs → length xs ≤ c →
  offset (int_of pos) = Some i →
  Erase pos (mk xs c) = Ok i (stay (mk (delete i xs) c)).
Proof.
  intros Hpos Hle Hoff. pose proof (offset_int_of_le _ _ Hoff) as Hi.
  destruct (split_at i xs) as (xs1 & a & xs2 & -> & <- & ->); [lia|].
  by apply Erase_mk_split.
Qed.

Lemma Emplace_relocate_run xs1 xs2 x spost (k : nat) :
  let by_move := is_nothrow_move_constructible || negb is_nothrow_copy_constructible in
  relocation_ok by_move (xs1 ++ xs2) →
  length (xs1 ++ xs2) < k →
  Emplace_relocate ((Live <$> xs1 ++ xs2) ++ spost) (length (xs1 ++ xs2)) (length xs1)
    (replicate (length xs1) Raw ++ Live x :: replicate (k - S (length xs1)) Raw)
  = Done ((Live <$> (if by_move then moved_from <$> xs1 ++ xs2 else xs1 ++ xs2)) ++ spost,
          (Live <$> xs1 ++ x :: xs2) ++ replicate (k - S (length (xs1 ++ xs2))) Raw).
Proof.
  intros by_move [Hok1 Hok2]%relocation_ok_app Hk.
  rewrite length_app in Hk.
  unfold Emplace_relocate. fold by_move.
  replace (length (xs1 ++ xs2) - length xs1) with (length xs2)
    by (rewrite length_app; lia).
  replace (replicate (k - S (length xs1)) (@Raw T))
    with (replicate (length xs2) (@Raw T)
          ++ replicate (k - S (length (xs1 ++ xs2))) Raw).
  2:{ rewrite <- replicate_add. f_equal. rewrite length_app. lia. }
  set (rest := replicate (k - S (length (xs1 ++ xs2))) (@Raw T)).
  rewrite !fmap_app, <- !app_assoc. cbn [fmap list_fmap app].
  destruct by_move; unfold relocation_ok in Hok1, Hok2.
  - pose proof (uninitialized_move_n_run xs1 [] ((Live <$> xs2) ++ spost) []
                  (replicate (length xs1) Raw)
                  (Live x :: replicate (length xs2) Raw ++ rest) Hok1) as H1.
    cbn [app length] in H1. rewrite H1 by (by rewrite length_replicate).
    pose proof (uninitialized_move_n_run xs2 (Live <$> (moved_from <$> xs1)) spost
                  ((Live <$> xs1) ++ [Live x])
                  (replicate (length xs2) Raw) rest Hok2) as H2.
    rewrite length_snoc, !length_fmap, <- !app_assoc in H2. cbn [app] in H2.
    replace (length xs1 + 1) with (S (length xs1)) by lia.
    rewrite H2 by (by rewrite length_replicate).
    by rewrite !fmap_app, <- !app_assoc.
  - pose proof (uninitialized_copy_n_run xs1 [] ((Live <$> xs2) ++ spost) []
                  (replicate (length xs1) Raw)
                  (Live x :: replicate (length xs2) Raw ++ rest) Hok1) as H1.
    cbn [app length] in H1. rewrite H1 by (by rewrite length_replicate).
    pose proof (uninitialized_copy_n_run xs2 (Live <$> xs1) spost
                  ((Live <$> xs1) ++ [Live x])
                  (replicate (length xs2) Raw) rest Hok2) as H2.
    rewrite length_snoc, !length_fmap, <- !app_assoc in H2. cbn [app] in H2.
    replace (length xs1 + 1) with (S (length xs1)) by lia.
    rewrite H2 by (by rewrite length_replicate).
    by rewrite ?fmap_app, <- ?app_assoc.
Qed.

(** [Emplace] on a full vector: the new block holds the elements before
    the position, the new element, and the elements from the position on. *)
Lemma Emplace_full_mk pos xs1 xs2 args x :
  pos ≤ length (xs1 ++ xs2) →
  offset (int_of pos) = Some (length xs1) →
  allocatable (capacity_after_insert (length (xs1 ++ xs2)) (length (xs1 ++ xs2))) →
  construct args = inr x →
  relocation_ok (is_nothrow_move_constructible || negb is_nothrow_copy_constructible)
    (xs1 ++ xs2) →
  Emplace pos args (mk (xs1 ++ xs2) (length (xs1 ++ xs2)))
  = Ok (length xs1)
       (stay (mk (xs1 ++ x :: xs2)
                (capacity_after_insert (length (xs1 ++ xs2)) (length (xs1 ++ xs2))))).
Proof.
  intros Hpos Hoff Hal Hx Hok. revert Hal.
  unfold Emplace, Capacity, capacity_after_insert.
  cbn [mk data_ size_ capacity_ buffer_ RawMemory_Capacity RawMemory_new].
  rewrite (decide_True (P := pos ≤ length (xs1 ++ xs2))) by done.
  rewrite !(decide_True (P := length (xs1 ++ xs2) = length (xs1 ++ xs2))) by done.
  rewrite Hx, Hoff.
  set (k := if decide (length (xs1 ++ xs2) = 0) then 1 else length (xs1 ++ xs2) * 2).
  intros Hal.
  assert (length (xs1 ++ xs2) < k) as Hk by (unfold k; case_decide; lia).
  rewrite Allocate_fits by done.
  rewrite construct_at_replicate by (rewrite length_app in Hk; lia).
  rewrite Emplace_relocate_run by done.
  rewrite destroy_n_front by (by rewrite length_source_after).
  rewrite RawMemory_move_assign_eq.
  unfold with_buffer, stay, mk. cbn [data_ size_ capacity_ buffer_].
  rewrite Deallocate_app, !Deallocate_raw.
  assert (length (xs1 ++ x :: xs2) = S (length (xs1 ++ xs2))) as ->.
  { rewrite !length_app. simpl. lia. }
  done.
Qed.

(** [Emplace] on an empty vector with spare capacity constructs in place. *)
Lemma Emplace_empty_mk args x c :
  0 < c → construct args = inr x →
  Emplace 0 args (mk [] c) = Ok 0 (stay (mk [x] c)).
Proof.
  intros Hc Hx. unfold Emplace, Capacity.
  cbn [mk data_ size_ capacity_ buffer_ RawMemory_Capacity length fmap list_fmap app].
  rewrite decide_True by done.
  rewrite decide_False by lia.
  rewrite decide_False by auto.
  rewrite Hx, Nat.sub_0_r.
  rewrite (offset_int_of 0) by done.
  rewrite (construct_at_replicate 0 c) by done.
  unfold stay, mk, with_buffer. cbn [data_ size_ capacity_ buffer_ length].
  done.
Qed.

(** The round trip of C6 where the insertion reallocates: on a full
    vector, inserting and erasing at the same position gives back the
    element sequence (in the larger block). *)
Lemma insert_then_erase_full xs1 xs2 value :
  fits_int (length xs1) →
  allocatable (capacity_after_insert (length (xs1 ++ xs2)) (length (xs1 ++ xs2))) →
  Forall nothrow (value :: xs1 ++ xs2) →
  insert_then_erase (length xs1) value (mk (xs1 ++ xs2) (length (xs1 ++ xs2)))
  = Ok (length xs1)
       (stay (mk (xs1 ++ xs2)
                (capacity_after_insert (length (xs1 ++ xs2)) (length (xs1 ++ xs2))))).
Proof.
  intros Hfits Hal Hok. inversion Hok as [|? ? [Hv _] Hxs]; subst.
  pose proof (offset_int_of _ Hfits) as Hoff.
  pose proof (capacity_after_insert_gt (length (xs1 ++ xs2)) (length (xs1 ++ xs2)))
    as Hgt.
  unfold insert_then_erase, Insert.
  rewrite (Emplace_full_mk (length xs1) xs1 xs2 _ value).
  - cbn [self stay leaked]. rewrite Erase_mk_split; [done| | |done].
    + rewrite !length_app in *. simpl. lia.
    + rewrite length_app. simpl. lia.
  - rewrite length_app. lia.
  - done.
  - done.
  - simpl. by rewrite Hv.
  - by apply nothrow_relocation_ok.
Qed.

End InsertErase.

(** ** The other constructors and methods on well-formed vectors *)

Section Others.
Context {T : Type} `{Element T}.
Implicit Types (xs ys zs : list T) (v : Vector T).

Lemma Vector_sized_mk (size : nat) :
  allocatable size →
  Vector_sized size = Some (mk (replicate size value_init) size).
Proof.
  intros Hal. unfold Vector_sized, RawMemory_new.
  rewrite Allocate_fits by done. cbn [buffer_].
  pose proof (uninitialized_value_construct_n_run (replicate size Raw) [] []) as Hrun.
  rewrite length_replicate, app_nil_r in Hrun. cbn [app length] in Hrun.
  rewrite Hrun. unfold mk, with_buffer. cbn [capacity_].
  by rewrite length_replicate, Nat.sub_diag.
Qed.

Lemma mk_split (n : nat) xs c :
  n ≤ length xs →
  buffer_ (data_ (mk xs c))
  = (Live <$> take n xs) ++ (Live <$> drop n xs) ++ replicate (c - length xs) Raw.
Proof.
  intros Hn. cbn [mk data_ buffer_].
  by rewrite <- (take_drop n xs) at 1; rewrite fmap_app, <- app_assoc.
Qed.

Lemma Resize_shrink_mk (n : nat) xs c :
  n ≤ length xs → length xs ≤ c →
  Resize n (mk xs c) = Ok tt (stay (mk (take n xs) c)).
Proof.
  intros Hn Hle. unfold Resize.
  rewrite (mk_split n) by done.
  cbn [mk size_ data_ capacity_].
  rewrite decide_False by lia.
  pose proof (DestroyN_run (drop n xs) (Live <$> take n xs)
                (replicate (c - length xs) Raw)) as Hd.
  rewrite length_fmap, length_take, length_drop in Hd.
  rewrite Nat.min_l in Hd by lia.
  unfold destroy_n. rewrite Hd.
  unfold stay, mk, with_buffer. cbn [capacity_].
  rewrite length_take, Nat.min_l by lia.
  rewrite <- replicate_add.
  by replace (length xs - n + (c - length xs)) with (c - n) by lia.
Qed.

Lemma Resize_grow_mk (n : nat) xs c :
  length xs < n → length xs ≤ c → allocatable n →
  relocation_ok (is_nothrow_move_constructible || negb is_copy_constructible) xs →
  Resize n (mk xs c)
  = Ok tt (stay (mk (xs ++ replicate (n - length xs) value_init) (c `max` n))).
Proof.
  intros Hn Hle Hal Hok. unfold Resize.
  cbn [mk size_ data_ capacity_].
  rewrite decide_True by lia.
  fold (mk xs c).
  assert (Reserve n (mk xs c) = Ok tt (stay (mk xs (c `max` n)))) as ->.
  { destruct (decide (n ≤ c)).
    - rewrite Reserve_noop by done. by rewrite Nat.max_l by lia.
    - rewrite Reserve_mk by (done || lia). by rewrite Nat.max_r by lia. }
  cbn [self leaked stay mk data_ size_ buffer_ capacity_].
  rewrite (replicate_split (n - length xs) (c `max` n - length xs)) by lia.
  pose proof (uninitialized_value_construct_n_run (replicate (n - length xs) Raw)
                (Live <$> xs)
                (replicate (c `max` n - length xs - (n - length xs)) Raw)) as Hrun.
  rewrite length_fmap, length_replicate in Hrun.
  rewrite Hrun.
  unfold mk, with_buffer. cbn [capacity_].
  rewrite fmap_app, <- app_assoc, length_app, length_replicate.
  replace (length xs + (n - length xs)) with n by lia.
  by replace (c `max` n - length xs - (n - length xs)) with (c `max` n - n) by lia.
Qed.

Lemma copy_n_run ys : ∀ zs spre spost dpre dpost,
  length zs = length ys →
  copy_n (spre ++ (Live <$> ys) ++ spost) (length spre) (length ys)
    (dpre ++ (Live <$> zs) ++ dpost) (length dpre)
  = Some (dpre ++ (Live <$> ys) ++ dpost).
Proof.
  induction ys as [|y ys IH]; intros zs spre spost dpre dpost Hlen.
  - by destruct zs.
  - destruct zs as [|z zs]; [done|].
    cbn [fmap list_fmap length copy_n app].
    unfold copy_assign_at.
    rewrite !lookup_run_head, insert_run_head.
    rewrite (snoc_app spre), (snoc_app dpre (Live y)).
    rewrite <- (length_snoc spre (Live y)), <- (length_snoc dpre (Live y)).
    rewrite (IH zs) by (simpl in Hlen; lia).
    by rewrite <- app_assoc.
Qed.

Lemma Vector_dtor_mk xs c : Vector_dtor (mk xs c) = Some [].
Proof.
  unfold Vector_dtor. cbn [mk data_ buffer_ size_].
  pose proof (DestroyN_run xs [] (replicate (c - length xs) Raw)) as Hd.
  cbn [app length] in Hd. rewrite Hd.
  by rewrite Deallocate_app, !Deallocate_raw.
Qed.

Lemma Vector_copy_assign_mk xs c ys d :
  length xs ≤ c → length ys ≤ d → allocatable (length ys) →
  Forall (λ y, copy_throws y = None) ys →
  Vector_copy_assign (mk xs c) (mk ys d)
  = Ok tt (stay (mk ys (if decide (c < length ys) then length ys else c))).
Proof.
  intros Hxs Hys Hal Hok. unfold Vector_copy_assign.
  cbn [mk data_ size_ capacity_ RawMemory_Capacity].
  case_decide as Hc.
  - fold (mk ys d) (mk xs c).
    rewrite Vector_copy_ctor_mk by done.
    rewrite Swap_eq, Vector_dtor_mk. done.
  - case_decide as Hlt.
    + pose proof (mk_split (length ys) xs c) as Hsplit.
      cbn [mk data_ buffer_] in Hsplit. cbn [buffer_].
      rewrite Hsplit by lia.
      pose proof (copy_n_run ys (take (length ys) xs) []
                    (replicate (d - length ys) Raw) []
                    ((Live <$> drop (length ys) xs) ++ replicate (c - length xs) Raw))
        as Hcopy.
      cbn [app length] in Hcopy.
      rewrite Hcopy by (rewrite length_take; lia).
      pose proof (DestroyN_run (drop (length ys) xs) (Live <$> ys)
                    (replicate (c - length xs) Raw)) as Hd.
      rewrite length_fmap, length_drop in Hd.
      unfold destroy_n. rewrite Hd.
      unfold stay, mk, with_buffer. cbn [capacity_].
      rewrite <- replicate_add.
      by replace (length xs - length ys + (c - length xs)) with (c - length ys) by lia.
    + pose proof (mk_split (length xs) ys d) as Hsplit.
      cbn [mk data_ buffer_] in Hsplit. cbn [buffer_].
      rewrite Hsplit by lia.
      assert (length (take (length xs) ys) = length xs) as Htake
        by (rewrite length_take; lia).
      pose proof (copy_n_run (take (length xs) ys) xs []
                    ((Live <$> drop (length xs) ys) ++ replicate (d - length ys) Raw) []
                    (replicate (c - length xs) Raw)) as Hcopy.
      cbn [app length] in Hcopy. rewrite Htake in Hcopy.
      rewrite Hcopy by done.
      rewrite (replicate_split (length ys - length xs) (c - length xs)) by lia.
      apply Forall_drop with (n := length xs) in Hok.
      pose proof (uninitialized_copy_n_run (drop (length xs) ys)
                    (Live <$> take (length xs) ys) (replicate (d - length ys) Raw)
                    (Live <$> take (length xs) ys)
                    (replicate (length ys - length xs) Raw)
                    (replicate (c - length xs - (length ys - length xs)) Raw) Hok) as Hu.
      rewrite length_fmap, Htake, length_drop in Hu.
      rewrite Hu by (by rewrite length_replicate).
      unfold stay, mk, with_buffer. cbn [capacity_].
      rewrite app_assoc, <- fmap_app, take_drop.
      by replace (c - length xs - (length ys - length xs)) with (c - length ys) by lia.
Qed.

End Others.

(** ** Element types that never throw: the invariant is preserved *)

Section Preservation.
Context {T : Type} `{Element T}.
Implicit Types (xs ys zs : list T) (v : Vector T).
Hypothesis never_throws : ∀ x : T, nothrow x.

Lemma always_relocation_ok by_move xs : relocation_ok by_move xs.
Proof. apply nothrow_relocation_ok, Forall_forall. auto. Qed.

Lemma always_copy_ok xs : Forall (λ x, copy_throws x = None) xs.
Proof. apply Forall_forall. intros x _. apply never_throws. Qed.

Lemma EmplaceBack_args_throw args e v v' :
  construct args = inl e → leaves (EmplaceBack args v) v' → v' = v.
Proof.
  intros He. unfold EmplaceBack. rewrite He.
  destruct (decide (size_ v = Capacity v)); cbn; congruence.
Qed.

Lemma Emplace_args_throw index args e v v' :
  construct args = inl e → leaves (Emplace index args v) v' → v' = v.
Proof.
  intros He. unfold Emplace. rewrite He.
  destruct (decide (index ≤ size_ v)); [|done].
  destruct (decide (size_ v = Capacity v)); [cbn; congruence|].
  destruct (decide (size_ v ≠ 0)); cbn; congruence.
Qed.

Lemma Reserve_preserves n v v' :
  invariant v → allocatable n → leaves (Reserve n v) v' → invariant v'.
Proof.
  intros (xs & c & Hle & Hal_c & ->)%invariant_is_mk Hal.
  destruct (decide (n ≤ c)).
  - rewrite Reserve_noop by done. simpl. intros <-. by apply invariant_mk.
  - rewrite Reserve_mk by (lia || done || apply always_relocation_ok).
    simpl. intros <-. apply invariant_mk; [lia|done].
Qed.

Lemma Resize_preserves n v v' :
  invariant v → allocatable n → leaves (Resize n v) v' → invariant v'.
Proof.
  intros (xs & c & Hle & Hal_c & ->)%invariant_is_mk Hal.
  destruct (decide (length xs < n)).
  - rewrite Resize_grow_mk by (lia || done || apply always_relocation_ok).
    simpl. intros <-. apply invariant_mk.
    + rewrite length_app, length_replicate. lia.
    + by destruct (Nat.max_spec c n) as [[_ ->]|[_ ->]].
  - rewrite Resize_shrink_mk by lia.
    simpl. intros <-. apply invariant_mk; [rewrite length_take; lia|done].
Qed.

Lemma EmplaceBack_preserves args v v' :
  invariant v →
  allocatable (capacity_after_insert (Size v) (Capacity v)) →
  leaves (EmplaceBack args v) v' → invariant v'.
Proof.
  intros Hinv Hal. destruct (construct args) as [e|x] eqn:Hargs.
  - by intros ->%(EmplaceBack_args_throw _ e).
  - destruct (invariant_is_mk _ Hinv) as (xs & c & Hle & Hal_c & ->).
    rewrite Size_mk, Capacity_mk in Hal.
    rewrite (EmplaceBack_mk args x) by (done || intros _; apply always_relocation_ok).
    simpl. intros <-. apply invariant_mk; [|done]. rewrite length_snoc.
    by apply capacity_after_insert_gt.
Qed.

Lemma PopBack_preserves v v' :
  invariant v → leaves (PopBack v) v' → invariant v'.
Proof.
  intros (xs & c & Hle & Hal_c & ->)%invariant_is_mk.
  destruct xs as [|x xs _] using rev_ind.
  - rewrite PopBack_empty. simpl. intros <-. by apply invariant_mk.
  - rewrite length_snoc in Hle. rewrite PopBack_mk by lia.
    simpl. intros <-. apply invariant_mk; [lia|done].
Qed.

Lemma Emplace_preserves pos args v v' :
  invariant v →
  allocatable (capacity_after_insert (Size v) (Capacity v)) →
  leaves (Emplace pos args v) v' → invariant v'.
Proof.
  intros Hinv Hal. destruct (construct args) as [e|x] eqn:Hargs.
  { by intros ->%(Emplace_args_throw _ _ e). }
  destruct (decide (pos ≤ Size v)) as [Hpos|Hpos].
  2:{ unfold Emplace. unfold Size in Hpos. by rewrite decide_False by done. }
  destruct (decide (Size v = Capacity v)) as [Hfull|Hspare].
  - destruct (invariant_is_mk _ Hinv) as (xs & c & Hle & Hal_c & ->).
    rewrite Size_mk, Capacity_mk in *. subst c.
    destruct (offset (int_of pos)) as [i|] eqn:Hoff.
    2:{ unfold Emplace, Capacity. cbn [mk data_ size_ capacity_ RawMemory_Capacity].
        rewrite decide_True by done. rewrite decide_True by done.
        by rewrite Hargs, Hoff. }
    pose proof (offset_int_of_le _ _ Hoff) as Hi.
    assert (length (take i xs) = i) as Hlen by (rewrite length_take; lia).
    rewrite <- Hlen in Hoff.
    revert Hal Hpos. rewrite <- (take_drop i xs). intros Hal Hpos.
    rewrite (Emplace_full_mk pos _ _ args x) by (done || apply always_relocation_ok).
    simpl. intros <-. apply invariant_mk; [|done].
    pose proof (capacity_after_insert_gt (length (take i xs ++ drop i xs))
                  (length (take i xs ++ drop i xs))) as Hgt.
    rewrite !length_app in *. simpl. lia.
  - destruct (decide (Size v = 0)) as [Hz|Hnz].
    + destruct (invariant_is_mk _ Hinv) as (xs & c & Hle & Hal_c & ->).
      rewrite Size_mk, Capacity_mk in *.
      destruct xs; [|done]. simpl in Hpos, Hspare.
      assert (pos = 0) as -> by lia.
      rewrite (Emplace_empty_mk args x) by (done || lia).
      simpl. intros <-. apply invariant_mk; [simpl; lia|done].
    + pose proof (invariant_mk_elements v Hinv) as (_ & _ & Hcap).
      rewrite (Emplace_in_place_reads_raw pos args x) by (done || lia).
      done.
Qed.

Lemma Erase_preserves pos v v' :
  invariant v → leaves (Erase pos v) v' → invariant v'.
Proof.
  intros (xs & c & Hle & Hal_c & ->)%invariant_is_mk.
  destruct (decide (pos < length xs)) as [Hpos|Hpos].
  - destruct (offset (int_of pos)) as [i|] eqn:Hoff.
    + pose proof (offset_int_of_le _ _ Hoff) as Hi.
      rewrite (Erase_mk pos i) by done. simpl. intros <-.
      apply invariant_mk; [|done].
      rewrite length_delete by (apply lookup_lt_is_Some_2; lia). lia.
    + unfold Erase. cbn [mk size_]. rewrite decide_True by done.
      by rewrite Hoff.
  - unfold Erase. cbn [mk size_]. by rewrite decide_False by done.
Qed.

Lemma Vector_sized_preserves size v :
  allocatable size → Vector_sized size = Some v → invariant v.
Proof.
  intros Hal. rewrite Vector_sized_mk by done. intros [= <-].
  apply invariant_mk; [by rewrite length_replicate|done].
Qed.

Lemma Vector_copy_ctor_preserves v b l :
  invariant v → Vector_copy_ctor v = Ok b l → invariant b.
Proof.
  intros (xs & c & Hle & Hal_c & ->)%invariant_is_mk.
  assert (allocatable (length xs)) as Hal by (by apply (allocatable_le _ c)).
  rewrite Vector_copy_ctor_mk by (done || apply always_copy_ok).
  intros [= <- _]. by apply invariant_mk.
Qed.

Lemma Vector_copy_assign_preserves this rhs v' :
  invariant this → invariant rhs →
  leaves (Vector_copy_assign this rhs) v' → invariant v'.
Proof.
  intros (xs & c & Hxs & Hal_c & ->)%invariant_is_mk
    (ys & d & Hys & Hal_d & ->)%invariant_is_mk.
  assert (allocatable (length ys)) as Hal by (by apply (allocatable_le _ d)).
  rewrite Vector_copy_assign_mk by (done || apply always_copy_ok).
  simpl. intros <-. apply invariant_mk; case_decide; (done || lia).
Qed.

Lemma Vector_move_assign_preserves this rhs p rhs' :
  invariant this → invariant rhs →
  Vector_move_assign this rhs = Ok tt (p, rhs') →
  invariant (self p) ∧ invariant rhs'.
Proof.
  intros (ys & d & Hys & Hal_d & ->)%invariant_is_mk
    (xs & c & Hxs & Hal_c & ->)%invariant_is_mk.
  rewrite Vector_move_assign_mk by (done || intros _; apply always_relocation_ok).
  intros [= <- <-]. split; apply invariant_mk; simpl; try (done || lia).
  destruct (Nat.max_spec d (length xs)) as [[_ ->]|[_ ->]];
    [by apply (allocatable_le _ c)|done].
Qed.

End Preservation.

(** ** Any element type: [size_ <= capacity_] in every reachable state *)

Section Sizes.
Context {T : Type} `{Element T}.
Implicit Types (xs ys zs : list T) (v : Vector T) (buf src dst : list (slot T)).

Lemma construct_at_length buf i x : keeps1 (construct_at buf i x) (length buf).
Proof. unfold construct_at. case_decide; simpl; [apply length_insert|done]. Qed.

Lemma Destroy_length buf i : keeps1 (Destroy buf i) (length buf).
Proof. unfold Destroy. repeat case_match; simpl; try done. apply length_insert. Qed.

Lemma DestroyN_length n : ∀ buf first, keeps1 (DestroyN buf first n) (length buf).
Proof.
  induction n as [|n IH]; intros buf first; [done|].
  cbn [DestroyN]. pose proof (Destroy_length buf first) as Hd.
  destruct (Destroy buf first) as [buf'|]; [|done].
  simpl in Hd. rewrite <- Hd. apply IH.
Qed.

Lemma uninitialized_value_construct_n_length n : ∀ buf first,
  keeps1 (uninitialized_value_construct_n buf first n) (length buf).
Proof.
  induction n as [|n IH]; intros buf first; [done|].
  cbn [uninitialized_value_construct_n].
  pose proof (construct_at_length buf first value_init) as Hc.
  destruct (construct_at buf first value_init) as [buf'|]; [|done].
  simpl in Hc. rewrite <- Hc. apply IH.
Qed.

Lemma uninitialized_copy_loop_length n : ∀ src first dst cur,
  match uninitialized_copy_loop src first n dst cur with
  | Done (dst', _) | Raised _ (dst', _) => length dst' = length dst
  | Fault => True
  end.
Proof.
  induction n as [|n IH]; intros src first dst cur; [done|].
  cbn [uninitialized_copy_loop].
  destruct (src !! first) as [[|x]|]; try done.
  destruct (copy_throws x); [done|].
  pose proof (construct_at_length dst cur x) as Hc.
  destruct (construct_at dst cur x) as [dst'|]; [|done].
  simpl in Hc. rewrite <- Hc. apply IH.
Qed.

Lemma uninitialized_copy_n_length src first n dst d_first :
  keeps_res1 (uninitialized_copy_n src first n dst d_first) (length dst).
Proof.
  unfold uninitialized_copy_n.
  pose proof (uninitialized_copy_loop_length n src first dst d_first) as Hl.
  destruct (uninitialized_copy_loop src first n dst d_first) as [[d c]|e [d c]|];
    try done.
  pose proof (DestroyN_length (c - d_first) d d_first) as Hd.
  unfold destroy_n. destruct (DestroyN d d_first (c - d_first)); [|done].
  simpl in *. congruence.
Qed.

Lemma uninitialized_move_loop_length n : ∀ src first dst cur,
  match uninitialized_move_loop src first n dst cur with
  | Done (src', dst', _) | Raised _ (src', dst', _) =>
      length src' = length src ∧ length dst' = length dst
  | Fault => True
  end.
Proof.
  induction n as [|n IH]; intros src first dst cur; [done|].
  cbn [uninitialized_move_loop].
  destruct (src !! first) as [[|x]|]; try done.
  destruct (move_throws x); [done|].
  pose proof (construct_at_length dst cur x) as Hc.
  destruct (construct_at dst cur x) as [dst'|]; [|done].
  simpl in Hc. rewrite <- Hc.
  rewrite <- (length_insert src first (Live (moved_from x))). apply IH.
Qed.

Lemma uninitialized_move_n_length src first n dst d_first :
  keeps_res2 (uninitialized_move_n src first n dst d_first) (length src) (length dst).
Proof.
  unfold uninitialized_move_n.
  pose proof (uninitialized_move_loop_length n src first dst d_first) as Hl.
  destruct (uninitialized_move_loop src first n dst d_first)
    as [[[s d] c]|e [[s d] c]|]; try done.
  pose proof (DestroyN_length (c - d_first) d d_first) as Hd.
  unfold destroy_n. destruct (DestroyN d d_first (c - d_first)); [|done].
  simpl in *. split; [tauto|]. destruct Hl. congruence.
Qed.

Lemma relocate_n_length by_move src first n dst d_first :
  keeps_res2 (relocate_n by_move src first n dst d_first) (length src) (length dst).
Proof.
  unfold relocate_n. destruct by_move; [apply uninitialized_move_n_length|].
  pose proof (uninitialized_copy_n_length src first n dst d_first) as Hl.
  by destruct (uninitialized_copy_n src first n dst d_first).
Qed.

Lemma copy_n_length n : ∀ src first dst d_first,
  keeps1 (copy_n src first n dst d_first) (length dst).
Proof.
  induction n as [|n IH]; intros src first dst d_first; [done|].
  cbn [copy_n]. unfold copy_assign_at.
  destruct (src !! first) as [[|x]|]; try done.
  destruct (dst !! d_first) as [[|z]|]; try done.
  rewrite <- (length_insert dst d_first (Live x)). apply IH.
Qed.

Lemma move_assign_at_length buf s d : keeps1 (move_assign_at buf s d) (length buf).
Proof.
  unfold move_assign_at. repeat case_match; simpl; try done.
  by rewrite !length_insert.
Qed.

Lemma move_loop_length n : ∀ buf first d_first,
  keeps1 (move_loop buf first n d_first) (length buf).
Proof.
  induction n as [|n IH]; intros buf first d_first; [done|].
  cbn [move_loop]. pose proof (move_assign_at_length buf first d_first) as Hm.
  destruct (move_assign_at buf first d_first) as [buf'|]; [|done].
  simpl in Hm. rewrite <- Hm. apply IH.
Qed.

Lemma move_range_length buf first last d_first :
  keeps1 (move_range buf first last d_first) (length buf).
Proof. unfold move_range. case_decide; [apply move_loop_length|done]. Qed.

Lemma move_backward_loop_length n : ∀ buf first d_last,
  keeps1 (move_backward_loop buf first n d_last) (length buf).
Proof.
  induction n as [|n IH]; intros buf first d_last; [done|].
  cbn [move_backward_loop]. destruct d_last as [|d']; [done|].
  pose proof (move_assign_at_length buf (first + n) d') as Hm.
  destruct (move_assign_at buf (first + n) d') as [buf'|]; [|done].
  simpl in Hm. rewrite <- Hm. apply IH.
Qed.

Lemma move_backward_length buf first last d_last :
  keeps1 (move_backward buf first last d_last) (length buf).
Proof. unfold move_backward. case_decide; [apply move_backward_loop_length|done]. Qed.

Lemma Emplace_relocate_length src size index tmp :
  keeps_res2 (Emplace_relocate src size index tmp) (length src) (length tmp).
Proof.
  unfold Emplace_relocate.
  destruct (is_nothrow_move_constructible || negb is_nothrow_copy_constructible).
  - pose proof (uninitialized_move_n_length src 0 index tmp 0) as H1.
    destruct (uninitialized_move_n src 0 index tmp 0) as [[s1 t1]|e [s1 t1]|];
      try done.
    destruct H1 as [<- <-].
    pose proof (uninitialized_move_n_length s1 index (size - index) t1 (index + 1)) as H2.
    destruct (uninitialized_move_n s1 index (size - index) t1 (index + 1))
      as [[s2 t2]|[] [s2 t2]|]; try done.
    pose proof (DestroyN_length index t2 0) as H3.
    destruct (DestroyN t2 0 index); [|done].
    simpl in *. split; [tauto|]. destruct H2. congruence.
  - pose proof (uninitialized_copy_n_length src 0 index tmp 0) as H1.
    destruct (uninitialized_copy_n src 0 index tmp 0) as [t1|[] t1|]; try done.
    + simpl in H1. rewrite <- H1.
      pose proof (uninitialized_copy_n_length src index (size - index) t1 (index + 1)) as H2.
      destruct (uninitialized_copy_n src index (size - index) t1 (index + 1))
        as [t2|[] t2|]; try done.
      pose proof (DestroyN_length index t2 0) as H3.
      destruct (DestroyN t2 0 index); [|done].
      simpl in *. split; [done|]. congruence.
    + pose proof (Destroy_length t1 index) as H1'.
      destruct (Destroy t1 index) as [t1'|]; [|done].
      simpl in H1, H1'.
      pose proof (uninitialized_copy_n_length src index (size - index) t1' (index + 1)) as H2.
      destruct (uninitialized_copy_n src index (size - index) t1' (index + 1))
        as [t2|[] t2|]; try done; simpl in H2.
      * simpl. split; [done|]. congruence.
      * pose proof (DestroyN_length index t2 0) as H3.
        destruct (DestroyN t2 0 index); [|done].
        simpl in *. split; [done|]. congruence.
      * simpl. split; [done|]. congruence.
Qed.

Lemma Reserve_sizes n v :
  size_within_capacity v →
  match Reserve n v with
  | Ok _ p => size_within_capacity (self p) ∧ size_ (self p) = size_ v ∧
              n ≤ capacity_ (data_ (self p))
  | Throw _ p => size_within_capacity (self p)
  | Terminate | Undefined => True
  end.
Proof.
  intros [Hlen Hle]. unfold Reserve, RawMemory_Capacity.
  case_decide as Hn; [done|].
  pose proof (relocate_n_length
                (is_nothrow_move_constructible || negb is_copy_constructible)
                (buffer_ (data_ v)) 0 (size_ v) (buffer_ (RawMemory_new n)) 0) as Hr.
  destruct (relocate_n _ _ _ _ _ _) as [[src dst]|e [src dst]|]; try done;
    destruct Hr as [Hsrc Hdst].
  - destruct (destroy_n src 0 (size_ v)); [|done].
    pose proof (Allocate_length n).
    unfold size_within_capacity. simpl in *. lia.
  - unfold size_within_capacity. simpl. lia.
Qed.

Lemma Reserve_keeps n v v' :
  size_within_capacity v → leaves (Reserve n v) v' → size_within_capacity v'.
Proof.
  intros Hv. pose proof (Reserve_sizes n v Hv) as Hr.
  destruct (Reserve n v); simpl; try done; intros <-; tauto.
Qed.

Lemma Resize_keeps n v v' :
  size_within_capacity v → leaves (Resize n v) v' → size_within_capacity v'.
Proof.
  intros Hv. unfold Resize. case_decide as Hn.
  - pose proof (Reserve_sizes n v Hv) as Hr.
    destruct (Reserve n v) as [[] p|e p| |]; simpl; try done; [|by intros <-].
    destruct Hr as ([Hlen Hle] & Hsize & Hcap).
    pose proof (uninitialized_value_construct_n_length (n - size_ (self p))
                  (buffer_ (data_ (self p))) (size_ (self p))) as Hu.
    destruct (uninitialized_value_construct_n _ _ _); [|done].
    simpl. intros <-. unfold size_within_capacity. simpl in *. lia.
  - destruct Hv as [Hlen Hle].
    pose proof (DestroyN_length (size_ v - n) (buffer_ (data_ v)) n) as Hd.
    unfold destroy_n. destruct (DestroyN _ _ _); [|done].
    simpl. intros <-. unfold size_within_capacity. simpl in *. lia.
Qed.

Lemma PopBack_keeps v v' :
  size_within_capacity v → leaves (PopBack v) v' → size_within_capacity v'.
Proof.
  intros [Hlen Hle]. unfold PopBack.
  case_decide; [by simpl; intros <-|].
  case_decide; [|done].
  pose proof (Destroy_length (buffer_ (data_ v)) (size_ v - 1)) as Hd.
  destruct (Destroy _ _); [|done].
  simpl. intros <-. unfold size_within_capacity. simpl in *. lia.
Qed.

Lemma EmplaceBack_keeps args v v' :
  size_within_capacity v → leaves (EmplaceBack args v) v' → size_within_capacity v'.
Proof.
  intros [Hlen Hle]. unfold EmplaceBack, Capacity, RawMemory_Capacity.
  destruct (construct args) as [e|x].
  { by case_decide; simpl; intros <-. }
  case_decide as Hfull.
  - set (k := if decide (size_ v = 0) then 1 else size_ v * 2).
    assert (size_ v < k) as Hk by (unfold k; case_decide; lia).
    pose proof (construct_at_length (buffer_ (RawMemory_new k)) (size_ v) x) as Hc.
    destruct (construct_at _ _ _) as [tmp0|]; [|done].
    pose proof (Allocate_length k). simpl in Hc.
    pose proof (relocate_n_length
                  (is_nothrow_move_constructible || negb is_nothrow_copy_constructible)
                  (buffer_ (data_ v)) 0 (size_ v) tmp0 0) as Hr.
    destruct (relocate_n _ _ _ _ _ _) as [[src dst]|e [src dst]|]; try done;
      destruct Hr as [Hsrc Hdst].
    + destruct (destroy_n src 0 (size_ v)); [|done].
      simpl. unfold RawMemory_index. case_decide; [|done].
      simpl. intros <-. unfold size_within_capacity. simpl in *. lia.
    + simpl. intros <-. unfold size_within_capacity. simpl. lia.
  - pose proof (construct_at_length (buffer_ (data_ v)) (size_ v) x) as Hc.
    destruct (construct_at _ _ _); [|done].
    unfold RawMemory_index. case_decide; [|done].
    simpl. intros <-. unfold size_within_capacity. simpl in *. lia.
Qed.

Lemma Emplace_keeps pos args v v' :
  size_within_capacity v → leaves (Emplace pos args v) v' → size_within_capacity v'.
Proof.
  intros [Hlen Hle]. unfold Emplace, Capacity, RawMemory_Capacity.
  case_decide as Hpos; [|done].
  destruct (construct args) as [e|x].
  { by repeat case_decide; simpl; intros <-. }
  case_decide as Hfull.
  - set (k := if decide (size_ v = 0) then 1 else size_ v * 2).
    assert (size_ v < k) as Hk by (unfold k; case_decide; lia).
    destruct (offset (int_of pos)) as [index|]; [|done].
    pose proof (construct_at_length (buffer_ (RawMemory_new k)) index x) as Hc.
    destruct (construct_at _ _ _) as [tmp0|]; [|done].
    pose proof (Allocate_length k). simpl in Hc.
    pose proof (Emplace_relocate_length (buffer_ (data_ v)) (size_ v) index tmp0) as Hr.
    destruct (Emplace_relocate _ _ _ _) as [[src dst]|e [src dst]|]; try done;
      destruct Hr as [Hsrc Hdst].
    + destruct (destroy_n src 0 (size_ v)); [|done].
      simpl. intros <-. unfold size_within_capacity. simpl in *. lia.
    + simpl. intros <-. unfold size_within_capacity. simpl. lia.
  - case_decide as Hne.
    + unfold RawMemory_index. case_decide; [|done].
      destruct (buffer_ (data_ v) !! size_ v) as [[|y]|]; try done.
      destruct (move_throws y); [by simpl; intros <-|].
      pose proof (construct_at_length (buffer_ (data_ v)) (size_ v) y) as Hc.
      destruct (construct_at _ _ _) as [buf1|]; [|done].
      destruct (offset (int_of pos)) as [index|]; [|done].
      pose proof (move_backward_length buf1 index (size_ v - 1) (size_ v)) as Hm.
      destruct (move_backward _ _ _ _) as [buf2|]; [|done].
      case_decide; [|done].
      destruct (buf2 !! index) as [[|z]|]; try done.
      simpl. intros <-. unfold size_within_capacity. simpl in *.
      rewrite length_insert. lia.
    + destruct (offset (int_of pos)) as [index|]; [|done].
      pose proof (construct_at_length (buffer_ (data_ v)) index x) as Hc.
      destruct (construct_at _ _ _); [|done].
      simpl. intros <-. unfold size_within_capacity. simpl in *. lia.
Qed.

Lemma Erase_keeps pos v v' :
  size_within_capacity v → leaves (Erase pos v) v' → size_within_capacity v'.
Proof.
  intros [Hlen Hle]. unfold Erase. case_decide; [|done].
  destruct (offset (int_of pos)) as [index|]; [|done].
  pose proof (move_range_length (buffer_ (data_ v)) (index + 1) (size_ v) index) as Hm.
  destruct (move_range _ _ _ _) as [buf1|]; [|done].
  pose proof (Destroy_length buf1 (size_ v - 1)) as Hd.
  destruct (Destroy _ _); [|done].
  simpl. intros <-. unfold size_within_capacity. simpl in *. lia.
Qed.

Lemma Vector_sized_keeps size v :
  Vector_sized size = Some v → size_within_capacity v.
Proof.
  unfold Vector_sized.
  pose proof (uninitialized_value_construct_n_length size
                (buffer_ (RawMemory_new size)) 0) as Hu.
  destruct (uninitialized_value_construct_n _ _ _); [|done].
  intros [= <-]. pose proof (Allocate_length size).
  unfold size_within_capacity. simpl in *. lia.
Qed.

Lemma Vector_copy_ctor_keeps v b l :
  Vector_copy_ctor v = Ok b l → size_within_capacity b.
Proof.
  unfold Vector_copy_ctor.
  pose proof (uninitialized_copy_n_length (buffer_ (data_ v)) 0 (size_ v)
                (buffer_ (RawMemory_new (size_ v))) 0) as Hu.
  destruct (uninitialized_copy_n _ _ _ _ _); try done.
  intros [= <- _]. pose proof (Allocate_length (size_ v)).
  unfold size_within_capacity. simpl in *. lia.
Qed.

Lemma Vector_copy_assign_keeps this rhs v' :
  size_within_capacity this →
  leaves (Vector_copy_assign this rhs) v' → size_within_capacity v'.
Proof.
  intros [Hlen Hle]. unfold Vector_copy_assign, RawMemory_Capacity.
  case_decide as Hcap.
  - pose proof (Vector_copy_ctor_keeps rhs) as Hc.
    destruct (Vector_copy_ctor rhs) as [copy l|e l| |]; try done.
    + rewrite Swap_eq. destruct (Vector_dtor this); [|done].
      simpl. intros <-. by eapply Hc.
    + by simpl; intros <-.
  - case_decide as Hlt.
    + pose proof (copy_n_length (size_ rhs) (buffer_ (data_ rhs)) 0
                    (buffer_ (data_ this)) 0) as Hc.
      destruct (copy_n _ _ _ _ _) as [buf1|]; [|done].
      pose proof (DestroyN_length (size_ this - size_ rhs) buf1 (size_ rhs)) as Hd.
      unfold destroy_n. destruct (DestroyN _ _ _); [|done].
      simpl. intros <-. unfold size_within_capacity. simpl in *. lia.
    + pose proof (copy_n_length (size_ this) (buffer_ (data_ rhs)) 0
                    (buffer_ (data_ this)) 0) as Hc.
      destruct (copy_n _ _ _ _ _) as [buf1|]; [|done].
      pose proof (uninitialized_copy_n_length (buffer_ (data_ rhs)) (size_ this)
                    (size_ rhs - size_ this) buf1 (size_ this)) as Hu.
      destruct (uninitialized_copy_n _ _ _ _ _); try done;
        simpl; intros <-; unfold size_within_capacity; simpl in *; lia.
Qed.

Lemma Vector_move_assign_keeps this rhs p rhs' :
  size_within_capacity this → size_within_capacity rhs →
  Vector_move_assign this rhs = Ok tt (p, rhs') →
  size_within_capacity (self p) ∧ size_within_capacity rhs'.
Proof.
  intros Hthis Hrhs. unfold Vector_move_assign. case_decide.
  - pose proof (Reserve_sizes (size_ rhs) this Hthis) as Hr.
    destruct (Reserve (size_ rhs) this) as [[] q|e q| |]; try done.
    rewrite Swap_eq. intros [= <- <-]. simpl. tauto.
  - rewrite Swap_eq. intros [= <- <-]. done.
Qed.

(** Whatever the element type does, every vector a program can hold has
    [size_ <= capacity_], in a block of no more than [capacity_] slots. *)
Lemma reachable_size_within_capacity v : reachable v → size_within_capacity v.
Proof.
  induction 1 as [ | size v Hsized | v b l _ IH Hcopy | v _ IH | v _ IH
                 | this rhs v' _ IH1 _ IH2 Hrun | this rhs p rhs' _ IH1 _ IH2 Hrun
                 | this rhs p rhs' _ IH1 _ IH2 Hrun | this other _ IH1 _ IH2
                 | n v v' _ IH Hrun | n v v' _ IH Hrun | x v v' _ IH Hrun
                 | x v v' _ IH Hrun | v v' _ IH Hrun | args v v' _ IH Hrun
                 | index args v v' _ IH Hrun | index v v' _ IH Hrun ].
  - done.
  - by eapply Vector_sized_keeps.
  - by eapply Vector_copy_ctor_keeps.
  - by rewrite Vector_move_ctor_eq.
  - by rewrite Vector_move_ctor_eq.
  - by apply (Vector_copy_assign_keeps this rhs).
  - by apply (Vector_move_assign_keeps this rhs p rhs').
  - by apply (Vector_move_assign_keeps this rhs p rhs').
  - by rewrite Swap_eq.
  - by apply (Resize_keeps n v).
  - by apply (Reserve_keeps n v).
  - unfold PushBack in Hrun. apply (EmplaceBack_keeps (ByConstRef x) v); [done|].
    by destruct (EmplaceBack (ByConstRef x) v).
  - unfold PushBack_rvalue in Hrun. apply (EmplaceBack_keeps (ByRvalue x) v); [done|].
    by destruct (EmplaceBack (ByRvalue x) v).
  - by apply (PopBack_keeps v).
  - by apply (EmplaceBack_keeps args v).
  - by apply (Emplace_keeps index args v).
  - by apply (Erase_keeps index v).
Qed.

End Sizes.

(** ** Concrete runs *)

Section Runs.

Lemma invariant_123 : invariant (H := plain_nat) (mk [1; 2; 3] 4).
Proof. apply invariant_mk; [simpl; lia|done]. Defined.

Lemma PopBack_spec_witness :
  invariant (H := plain_nat) (mk [1; 2; 3] 4) ∧
  ∃ v', PopBack (mk [1; 2; 3] 4) = Ok tt (stay v') ∧ elements v' = [1; 2].
Proof.
  split; [exact invariant_123|].
  destruct (PopBack_spec (H := plain_nat) _ invariant_123) as [_ Hpop].
  destruct Hpop as (v' & Hrun & _ & _ & _ & Hel & _); [done|].
  exists v'. split; [exact Hrun|exact Hel].
Defined.

Lemma Vector_copy_ctor_spec_witness :
  invariant (H := plain_nat) (mk [1; 2; 3] 4) ∧
  ∃ b, Vector_copy_ctor (H := plain_nat) (mk [1; 2; 3] 4) = Ok b [] ∧
       Size b = 3 ∧ Capacity b = 3 ∧ elements b = [1; 2; 3].
Proof.
  split; [exact invariant_123|].
  destruct (Vector_copy_ctor_spec (H := plain_nat) _ invariant_123) as [Hruns Hret].
  destruct Hruns as [b Hb].
  { apply Forall_forall. done. }
  exists b. destruct (Hret b [] Hb) as (_ & Hsize & Hcap & Hel).
  split_and!; [exact Hb|exact Hsize|exact Hcap|exact Hel].
Defined.

Lemma allocatable_10 : allocatable (H := plain_nat) 10.
Proof. done. Defined.

Lemma Reserve_spec_witness :
  invariant (H := plain_nat) (mk [1; 2; 3] 4) ∧ allocatable (H := plain_nat) 10 ∧
  Reserve (H := plain_nat) 10 (mk [1; 2; 3] 4) = Ok tt (stay (mk [1; 2; 3] 10)) ∧
  Reserve (H := plain_nat) 2 (mk [1; 2; 3] 4) = Ok tt (stay (mk [1; 2; 3] 4)).
Proof.
  split_and!; [exact invariant_123|exact allocatable_10|..].
  - destruct (Reserve_spec (H := plain_nat) 10 _ invariant_123 allocatable_10)
      as (_ & Hgrow & _).
    apply Hgrow; [rewrite Capacity_mk; lia|by apply Forall_forall].
  - destruct (Reserve_spec (H := plain_nat) 2 _ invariant_123) as (Hnoop & _);
      [done|].
    apply Hnoop. rewrite Capacity_mk. lia.
Defined.

Lemma invariant_5 : invariant (H := plain_nat) (mk [5] 1).
Proof. apply invariant_mk; [simpl; lia|done]. Defined.

Lemma invariant_123_full : invariant (H := plain_nat) (mk [1; 2; 3] 3).
Proof. apply invariant_mk; [simpl; lia|done]. Defined.




(** C1 fails on the code.  [copy_fragile_nat] is copy-constructible; its
    constructors throw on [7] and leave the source as it was.  [Reserve]
    keeps the guarantee of the claim on [[1; 7]]: the exception reaches the
    caller, nothing leaks, the vector is what it was.  [EmplaceBack] on
    the same vector lets the exception through with the new element [8]
    still alive in the block it releases: no destructor runs for it.
    [Emplace] at [begin()] of [[7]] catches the exception and does not
    rethrow it: the call returns, with [size_ = 2] and slot 1 raw. *)
Theorem relocation_failure_run :
  traits_sound (H := copy_fragile_nat) ∧
  Reserve (H := copy_fragile_nat) 4 (mk [1; 7] 2)
  = Throw StdException (stay (mk [1; 7] 2)) ∧
  EmplaceBack (H := copy_fragile_nat) (ByCtor (inr 8)) (mk [1; 7] 2)
  = Throw StdException {| self := mk [1; 7] 2; leaked := [8] |} ∧
  Emplace (H := copy_fragile_nat) 0 (ByCtor (inr 9)) (mk [7] 1)
  = Ok 0 {| self := {| data_ := {| buffer_ := [Live 9; Raw]; capacity_ := 2 |};
                       size_ := 2 |};
            leaked := [] |}.
Proof.
  split_and!; try reflexivity.
  unfold traits_sound. simpl. split_and!; discriminate.
Qed.

(** C2 fails on the code.  [fragile_nat] is copy-constructible and its move
    constructor can throw, so the rule of the claim relocates it by copy,
    and [Reserve] does: it succeeds on [[1; 7]].  [EmplaceBack] and
    [Emplace] test [!is_nothrow_copy_constructible_v<T>] instead and
    relocate the same vector by move: the move constructor throws on [7]
    after [1] was moved from. *)
Theorem EmplaceBack_moves_where_Reserve_copies :
  traits_sound (H := fragile_nat) ∧
  Reserve (H := fragile_nat) 4 (mk [1; 7] 2) = Ok tt (stay (mk [1; 7] 4)) ∧
  EmplaceBack (H := fragile_nat) (ByCtor (inr 8)) (mk [1; 7] 2)
  = Throw StdException {| self := mk [0; 7] 2; leaked := [8] |} ∧
  Emplace (H := fragile_nat) 2 (ByCtor (inr 8)) (mk [1; 7] 2)
  = Throw StdException {| self := mk [0; 7] 2; leaked := [8] |}.
Proof.
  split_and!; try reflexivity.
  unfold traits_sound. simpl. split_and!; discriminate.
Qed.

(** C3 fails on the code.  On [[1; 2; 3]] with capacity [4] (the vector
    three appends build), [Emplace] at position 1 and at [end()] does not
    move the last element into the free slot: it move-constructs slot
    [size_] from [data_[size_]], that same raw slot.  Were an object with
    value [0] to sit in that slot, the insertion at position 1 would end
    with [[1; 9; 2; 0]]: the former last element [3] is overwritten by the
    shift and is nowhere. *)
Theorem Emplace_in_place_run :
  PushBack_each (H := plain_nat) [1; 2; 3] Vector_default
  = Ok tt (stay (mk [1; 2; 3] 4)) ∧
  Emplace (H := plain_nat) 1 (ByCtor (inr 9)) (mk [1; 2; 3] 4) = Undefined ∧
  Emplace (H := plain_nat) 3 (ByCtor (inr 9)) (mk [1; 2; 3] 4) = Undefined ∧
  buffer_ (data_ (mk [1; 2; 3] 4)) !! size_ (mk [1; 2; 3] 4) = Some Raw ∧
  Emplace (H := plain_nat) 1 (ByCtor (inr 9))
    {| data_ := {| buffer_ := [Live 1; Live 2; Live 3; Live 0]; capacity_ := 4 |};
       size_ := 3 |}
  = Ok 1 (stay (mk [1; 9; 2; 0] 4)).
Proof. split_and!; reflexivity. Qed.


(** C5 fails on the code.  [fragile_nat] is copy-constructible and its
    copy constructor never throws, so each append of [1], [7], [8] to an
    empty vector should return, growing by copy.  The third append finds
    the vector full and [EmplaceBack] relocates by move (the trait of C2):
    the move of [7] throws after [1] was moved from, and the vector holds
    [[0; 7]]; [PushBack(T&&)] goes the same way.  Where the same values
    need no relocation, or where [Reserve] has done it (by copy), the
    appends return and leave [[1; 7; 8]]. *)
Theorem PushBack_each_run :
  traits_sound (H := fragile_nat) ∧
  (∀ x, copy_throws (Element := fragile_nat) x = None) ∧
  PushBack_each (H := fragile_nat) [1; 7] Vector_default
  = Ok tt (stay (mk [1; 7] 2)) ∧
  PushBack (H := fragile_nat) 8 (mk [1; 7] 2)
  = Throw StdException {| self := mk [0; 7] 2; leaked := [8] |} ∧
  PushBack_rvalue (H := fragile_nat) 8 (mk [1; 7] 2)
  = Throw StdException {| self := mk [0; 7] 2; leaked := [8] |} ∧
  PushBack_each (H := fragile_nat) [1; 7; 8] Vector_default
  = Throw StdException {| self := mk [0; 7] 2; leaked := [8] |} ∧
  PushBack_each (H := fragile_nat) [1; 7; 8] (mk [] 4)
  = Ok tt (stay (mk [1; 7; 8] 4)) ∧
  Reserve (H := fragile_nat) 4 (mk [1; 7] 2) = Ok tt (stay (mk [1; 7] 4)) ∧
  PushBack (H := fragile_nat) 8 (mk [1; 7] 4) = Ok tt (stay (mk [1; 7; 8] 4)).
Proof.
  split_and!; try reflexivity.
  unfold traits_sound. simpl. split_and!; discriminate.
Qed.

(** C6 fails on the code.  Inserting [9] at position 1 of [[1; 2; 3]]
    (capacity 4) and erasing there has no defined result: the insertion
    reads the raw slot [data_[size_]].  Were an object with value [0] to
    sit in that slot, the round trip would end with [[1; 2; 0]]. *)
Theorem insert_then_erase_run :
  insert_then_erase (H := plain_nat) 1 9 (mk [1; 2; 3] 4) = Undefined ∧
  insert_then_erase (H := plain_nat) 1 9
    {| data_ := {| buffer_ := [Live 1; Live 2; Live 3; Live 0]; capacity_ := 4 |};
       size_ := 3 |}
  = Ok 1 (stay (mk [1; 2; 0] 4)).
Proof. split; reflexivity. Qed.

(** C7 fails on the code.  [Vector<T> v; v.PushBack(7); v.Insert(v.begin(), 9);]
    with [T] as [fragile_nat]: the insertion reallocates, the move of [7]
    into the new block throws, the handler in [Emplace] swallows the
    exception, and the vector is left with [size_ = 2] and slot 1 raw. *)
Theorem reachable_breaks_invariant :
  reachable (H := fragile_nat)
    {| data_ := {| buffer_ := [Live 9; Raw]; capacity_ := 2 |}; size_ := 2 |} ∧
  ¬ invariant (H := fragile_nat)
      {| data_ := {| buffer_ := [Live 9; Raw]; capacity_ := 2 |}; size_ := 2 |}.
Proof.
  split.
  - apply (reach_Emplace 0 (ByConstRef 9) (mk [7] 1)); [|reflexivity].
    apply (reach_PushBack 7 Vector_default); [|reflexivity].
    apply reach_default.
  - intros (_ & _ & _ & Hlive & _).
    destruct (Hlive 1) as [x Hx]; [simpl; lia|]. discriminate.
Qed.

(** [Reserve] with a byte count that wraps to [0]: the block has no slot,
    and [capacity_] is set to the number asked for. *)
Lemma Reserve_wraps (n : nat) :
  n ≠ 0 → byte_count (H := plain_nat) n = 0%N →
  Reserve (H := plain_nat) n Vector_default
  = Ok tt (stay {| data_ := {| buffer_ := []; capacity_ := n |}; size_ := 0 |}).
Proof.
  intros Hn Hbytes. unfold Reserve.
  cbn [Vector_default data_ size_ RawMemory_default capacity_ RawMemory_Capacity].
  rewrite decide_False by lia.
  unfold RawMemory_new, Allocate. rewrite Hbytes. reflexivity.
Qed.

(** C8 (as stated) fails.  [Reserve(4)] on [[1; 7]], for a [T] without
    copy constructor whose move constructor throws on [7], throws and
    leaves [[0; 7]]: the element sequence has changed.  And
    [Reserve(2^62)] on an empty [Vector<int>] returns with
    [capacity_ = 2^62] and a block of no slot at all, the byte count
    [2^62 * 4] being [0] in [size_t]. *)
Lemma Reserve_counterexample :
  (Reserve (H := move_only_nat) 4 (mk [1; 7] 2)
   = Throw StdException (stay (mk [0; 7] 2)) ∧
   elements (mk [0; 7] 2) ≠ elements (mk [1; 7] 2)) ∧
  ∃ new_capacity : nat,
    N.of_nat new_capacity = (2 ^ 62)%N ∧
    Reserve (H := plain_nat) new_capacity Vector_default
    = Ok tt (stay {| data_ := {| buffer_ := []; capacity_ := new_capacity |};
                     size_ := 0 |}) ∧
    length (@nil (slot nat)) ≠ new_capacity.
Proof.
  split; [split; [reflexivity|discriminate]|].
  exists (N.to_nat (2 ^ 62)).
  assert (N.of_nat (N.to_nat (2 ^ 62)) = (2 ^ 62)%N) as Hn by apply N2Nat.id.
  split_and!; [exact Hn| |].
  - apply Reserve_wraps.
    + intros Hz. rewrite Hz in Hn. discriminate Hn.
    + unfold byte_count. rewrite Hn. reflexivity.
  - intros Hz. cbn [length] in Hz. rewrite <- Hz in Hn. discriminate Hn.
Qed.

End Runs.

(** ** Further properties of the methods *)

Section Further.
Context {T : Type} `{Element T}.
Implicit Types (xs ys zs : list T) (v : Vector T).

(** X1. [Erase] at a position that holds an element, the position being a
    value of [int], returns the same position and leaves the vector
    without that element: the elements before it and after it in order,
    size one less, capacity unchanged. *)
Theorem Erase_spec index v :
  invariant v → index < Size v → fits_int index →
  ∃ v', Erase index v = Ok index (stay v') ∧ invariant v' ∧
        Size v' = Size v - 1 ∧ Capacity v' = Capacity v ∧
        elements v' = delete index (elements v).
Proof.
  intros (xs & c & Hle & Hal_c & ->)%invariant_is_mk.
  rewrite Size_mk, Capacity_mk, elements_mk. intros Hidx Hfits.
  exists (mk (delete index xs) c).
  rewrite (Erase_mk index index) by (done || by apply offset_int_of).
  rewrite Size_mk, Capacity_mk, elements_mk.
  assert (length (delete index xs) = length xs - 1) as Hlen.
  { rewrite length_delete by (by apply lookup_lt_is_Some_2). lia. }
  split_and!; try done. apply invariant_mk; [lia|done].
Qed.

Lemma Emplace_mk index args x xs c :
  length xs ≤ c → index ≤ length xs → fits_int index →
  allocatable (capacity_after_insert (length xs) c) →
  construct args = inr x →
  length xs = c ∨ length xs = 0 →
  relocation_ok (is_nothrow_move_constructible || negb is_nothrow_copy_constructible) xs →
  Emplace index args (mk xs c)
  = Ok index (stay (mk (take index xs ++ x :: drop index xs)
                      (capacity_after_insert (length xs) c))).
Proof.
  intros Hle Hidx Hfits Hal Hx Hcase Hok.
  destruct (decide (length xs = c)) as [<-|Hspare].
  - assert (length (take index xs) = index) as Hlen by (rewrite length_take; lia).
    pose proof (Emplace_full_mk index (take index xs) (drop index xs) args x) as Hrun.
    rewrite take_drop, Hlen in Hrun.
    apply Hrun; try done. by apply offset_int_of.
  - destruct Hcase as [?|Hempty]; [done|].
    destruct xs; [|done]. simpl in Hidx, Hspare.
    assert (index = 0) as -> by lia.
    rewrite (Emplace_empty_mk args x) by (done || lia).
    unfold capacity_after_insert. simpl. by rewrite decide_False by lia.
Qed.

(** X2. [Emplace] on a vector that is full or empty, at a position in
    [[begin(), end()]] that is a value of [int], when no constructor it
    runs throws and the byte count of the block to allocate is a [size_t]
    value: it returns the position, the new element sits there between
    the elements that were before and those that were from the position
    on, the size is one more, and a full vector has moved to a block of
    twice the size (of one slot if it was empty). *)
Theorem Emplace_spec index args x v :
  invariant v → index ≤ Size v → fits_int index →
  allocatable (capacity_after_insert (Size v) (Capacity v)) →
  construct args = inr x →
  Size v = Capacity v ∨ Size v = 0 →
  relocation_ok (is_nothrow_move_constructible || negb is_nothrow_copy_constructible)
    (elements v) →
  ∃ v', Emplace index args v = Ok index (stay v') ∧ invariant v' ∧
        Size v' = Size v + 1 ∧
        Capacity v' = capacity_after_insert (Size v) (Capacity v) ∧
        elements v' = take index (elements v) ++ x :: drop index (elements v).
Proof.
  intros (xs & c & Hle & Hal_c & ->)%invariant_is_mk.
  rewrite Size_mk, Capacity_mk, elements_mk. intros Hidx Hfits Hal Hx Hcase Hok.
  exists (mk (take index xs ++ x :: drop index xs) (capacity_after_insert (length xs) c)).
  rewrite (Emplace_mk index args x) by done.
  rewrite Size_mk, Capacity_mk, elements_mk.
  assert (length (take index xs ++ x :: drop index xs) = length xs + 1) as Hlen.
  { rewrite length_app, length_take. simpl. rewrite length_drop. lia. }
  split_and!; try done. apply invariant_mk; [|done]. rewrite Hlen.
  pose proof (capacity_after_insert_gt (length xs) c Hle). lia.
Qed.

(** X3. On a vector that is full or empty and has fewer than [2^31]
    elements, when no constructor throws and the byte count of the block
    to allocate is a [size_t] value, [Emplace] at [end()] does what
    [EmplaceBack] does: the same vector results, and the iterator returned
    is the index of the reference [EmplaceBack] returns. *)
Theorem Emplace_at_end_is_EmplaceBack args x v :
  invariant v → fits_int (Size v) →
  allocatable (capacity_after_insert (Size v) (Capacity v)) →
  construct args = inr x →
  Size v = Capacity v ∨ Size v = 0 →
  relocation_ok (is_nothrow_move_constructible || negb is_nothrow_copy_constructible)
    (elements v) →
  Emplace (Vector_end v) args v = EmplaceBack args v.
Proof.
  intros (xs & c & Hle & Hal_c & ->)%invariant_is_mk.
  rewrite Size_mk, Capacity_mk, elements_mk. intros Hfits Hal Hx Hcase Hok.
  unfold Vector_end. cbn [mk size_ Nat.add].
  rewrite (Emplace_mk (length xs) args x) by done.
  rewrite (EmplaceBack_mk args x) by done.
  by rewrite take_ge, drop_ge by lia.
Qed.

(** X4. On a full vector whose element constructors do not throw,
    inserting a value at a position that is a value of [int] and erasing
    at the iterator returned gives back the element sequence, in the
    block the insertion grew (its byte count being a [size_t] value). *)
Theorem insert_then_erase_spec index value v :
  invariant v → index ≤ Size v → fits_int index → Size v = Capacity v →
  allocatable (capacity_after_insert (Size v) (Capacity v)) →
  Forall nothrow (value :: elements v) →
  ∃ v', insert_then_erase index value v = Ok index (stay v') ∧ invariant v' ∧
        elements v' = elements v ∧
        Capacity v' = capacity_after_insert (Size v) (Capacity v).
Proof.
  intros (xs & c & Hle & Hal_c & ->)%invariant_is_mk.
  rewrite Size_mk, Capacity_mk, elements_mk. intros Hidx Hfits <- Hal Hok.
  exists (mk xs (capacity_after_insert (length xs) (length xs))).
  assert (length (take index xs) = index) as Hlen by (rewrite length_take; lia).
  pose proof (insert_then_erase_full (take index xs) (drop index xs) value) as Hrun.
  rewrite take_drop, Hlen in Hrun. rewrite Hrun by done.
  rewrite Capacity_mk, elements_mk.
  split_and!; try done. apply invariant_mk; [|done].
  pose proof (capacity_after_insert_gt (length xs) (length xs)). lia.
Qed.

(** X5. [Resize] to at most the size keeps the first [new_size] elements
    and the capacity; [Resize] to more than the size, when the byte count
    of [new_size] elements is a [size_t] value and the relocating
    constructor does not throw, keeps the elements, appends
    value-initialised ones up to [new_size], and leaves a capacity of
    [new_size] unless the block already had room. *)
Theorem Resize_spec new_size v :
  invariant v →
  (new_size ≤ Size v →
   ∃ v', Resize new_size v = Ok tt (stay v') ∧ invariant v' ∧
         Size v' = new_size ∧ Capacity v' = Capacity v ∧
         elements v' = take new_size (elements v)) ∧
  (Size v < new_size → allocatable new_size →
   relocation_ok (is_nothrow_move_constructible || negb is_copy_constructible)
     (elements v) →
   ∃ v', Resize new_size v = Ok tt (stay v') ∧ invariant v' ∧
         Size v' = new_size ∧ Capacity v' = Capacity v `max` new_size ∧
         elements v' = elements v ++ replicate (new_size - Size v) value_init).
Proof.
  intros (xs & c & Hle & Hal_c & ->)%invariant_is_mk.
  rewrite Size_mk, Capacity_mk, elements_mk. split.
  - intros Hn. exists (mk (take new_size xs) c).
    rewrite Resize_shrink_mk by done.
    rewrite Size_mk, Capacity_mk, elements_mk, length_take.
    split_and!; try done; [|lia].
    apply invariant_mk; [rewrite length_take; lia|done].
  - intros Hn Hal Hok.
    exists (mk (xs ++ replicate (new_size - length xs) value_init) (c `max` new_size)).
    rewrite Resize_grow_mk by done.
    rewrite Size_mk, Capacity_mk, elements_mk, length_app, length_replicate.
    split_and!; try done; [|lia]. apply invariant_mk.
    + rewrite length_app, length_replicate. lia.
    + by destruct (Nat.max_spec c new_size) as [[_ ->]|[_ ->]].
Qed.


(** X7. [Vector(size)], for a [size] whose byte count is a [size_t] value,
    builds [size] value-initialised elements in a block of exactly [size]
    slots, and is what [Resize(size)] makes of a default-constructed
    vector. *)
Theorem Vector_sized_spec (size : nat) :
  allocatable size →
  ∃ v, Vector_sized size = Some v ∧ invariant v ∧
       Size v = size ∧ Capacity v = size ∧
       elements v = replicate size value_init ∧
       Resize size Vector_default = Ok tt (stay v).
Proof.
  intros Hal. exists (mk (replicate size value_init) size).
  rewrite Vector_sized_mk by done.
  rewrite Size_mk, Capacity_mk, elements_mk, length_replicate.
  split_and!; try done.
  - apply invariant_mk; [by rewrite length_replicate|done].
  - destruct size as [|n]; [done|].
    pose proof (Resize_grow_mk (S n) [] 0) as Hrun.
    cbn [length] in Hrun. rewrite Nat.sub_0_r, Nat.max_0_l in Hrun.
    apply Hrun; [lia|lia|done|]. by apply Forall_nil.
Qed.

(** X8. Copy assignment, when the copy constructor throws on none of the
    source's elements, leaves the target with the source's element
    sequence and size; the target keeps its block when the source fits in
    it, and otherwise gets a block of exactly the source's size.  Nothing
    leaks. *)
Theorem Vector_copy_assign_spec this rhs :
  invariant this → invariant rhs →
  Forall (λ x, copy_throws x = None) (elements rhs) →
  ∃ v', Vector_copy_assign this rhs = Ok tt (stay v') ∧ invariant v' ∧
        elements v' = elements rhs ∧ Size v' = Size rhs ∧
        Capacity v' = (if decide (Capacity this < Size rhs) then Size rhs
                       else Capacity this).
Proof.
  intros (xs & c & Hxs & Hal_c & ->)%invariant_is_mk
    (ys & d & Hys & Hal_d & ->)%invariant_is_mk.
  assert (allocatable (length ys)) as Hal by (by apply (allocatable_le _ d)).
  rewrite !Size_mk, Capacity_mk, elements_mk. intros Hok.
  exists (mk ys (if decide (c < length ys) then length ys else c)).
  rewrite Vector_copy_assign_mk by done.
  rewrite Size_mk, Capacity_mk, elements_mk.
  split_and!; try done. apply invariant_mk; case_decide; (done || lia).
Qed.

(** X9. Copy assignment from a source that does not fit in the target's
    block: if the copy constructor throws on an element of the source, the
    exception reaches the caller, the target is exactly what it was, and
    nothing leaks. *)
Theorem Vector_copy_assign_failure_realloc this rhs ys1 y ys2 e :
  invariant this → invariant rhs →
  Capacity this < Size rhs →
  elements rhs = ys1 ++ y :: ys2 →
  Forall (λ x, copy_throws x = None) ys1 →
  copy_throws y = Some e →
  Vector_copy_assign this rhs = Throw e (stay this).
Proof.
  intros (xs & c & Hxs & Hal_c & ->)%invariant_is_mk
    (ys & d & Hys & Hal_d & ->)%invariant_is_mk.
  assert (allocatable (length ys)) as Hal by (by apply (allocatable_le _ d)).
  rewrite Size_mk, Capacity_mk, elements_mk. intros Hlt Hel Hok Hy. subst ys.
  unfold Vector_copy_assign.
  rewrite decide_True by done.
  by rewrite (Vector_copy_ctor_raise ys1 y ys2 e).
Qed.

(** X10. Copy assignment from a source that fits in the target's block and
    is not shorter than the target: the target's elements are assigned
    first, the others are copy-constructed.  If the copy constructor then
    throws, the exception reaches the caller and the target keeps its size
    and capacity, but its elements have become the source's first ones. *)
Theorem Vector_copy_assign_failure_in_place this rhs ys0 ys1 y ys2 e :
  invariant this → invariant rhs →
  Size rhs ≤ Capacity this →
  elements rhs = ys0 ++ ys1 ++ y :: ys2 →
  length ys0 = Size this →
  Forall (λ x, copy_throws x = None) ys1 →
  copy_throws y = Some e →
  ∃ v', Vector_copy_assign this rhs = Throw e (stay v') ∧ invariant v' ∧
        Size v' = Size this ∧ Capacity v' = Capacity this ∧
        elements v' = ys0.
Proof.
  intros (xs & c & Hxs & Hal_c & ->)%invariant_is_mk
    (ys & d & Hys & Hal_d & ->)%invariant_is_mk.
  assert (allocatable (length ys)) as Hal by (by apply (allocatable_le _ d)).
  rewrite !Size_mk, Capacity_mk, elements_mk. intros Hfit Hel Hlen0 Hok Hy. subst ys.
  exists (mk ys0 c).
  rewrite Size_mk, Capacity_mk, elements_mk.
  split_and!; try done; [|apply invariant_mk; [lia|done]].
  unfold Vector_copy_assign.
  cbn [mk data_ size_ buffer_ capacity_ RawMemory_Capacity].
  rewrite decide_False by lia.
  rewrite decide_False by (rewrite length_app; lia).
  rewrite !fmap_app, <- !app_assoc.
  pose proof (copy_n_run ys0 xs []
                ((Live <$> ys1) ++ (Live <$> y :: ys2)
                 ++ replicate (d - length (ys0 ++ ys1 ++ y :: ys2)) Raw) []
                (replicate (c - length xs) Raw)) as Hcopy.
  cbn [app length] in Hcopy. rewrite Hlen0 in Hcopy.
  rewrite Hcopy by done.
  assert (length (ys0 ++ ys1 ++ y :: ys2) - length xs = length (ys1 ++ y :: ys2)) as ->.
  { rewrite length_app. lia. }
  assert (length ys1 ≤ c - length xs) as Hroom.
  { rewrite !length_app in Hfit. lia. }
  rewrite (replicate_split (length ys1) (c - length xs)) by done.
  pose proof (uninitialized_copy_n_raise ys1 y ys2 e (Live <$> ys0)
                (replicate (d - length (ys0 ++ ys1 ++ y :: ys2)) Raw)
                (Live <$> ys0) (replicate (length ys1) Raw)
                (replicate (c - length xs - length ys1) Raw) Hok Hy) as Hraise.
  rewrite length_fmap, Hlen0, fmap_app in Hraise.
  rewrite <- !app_assoc in Hraise.
  rewrite Hraise by (by rewrite length_replicate).
  unfold stay, with_data, with_buffer, mk. cbn [data_ size_ buffer_ capacity_].
  rewrite <- replicate_add, Hlen0.
  by replace (length ys1 + (c - length xs - length ys1)) with (c - length xs) by lia.
Qed.

(** X11. The copy constructor, when the copy constructor of [T] throws on
    an element of the source: the exception reaches the caller and every
    copy already built has been destroyed, so the released block leaks
    nothing. *)
Theorem Vector_copy_ctor_failure v xs1 y xs2 e :
  invariant v →
  elements v = xs1 ++ y :: xs2 →
  Forall (λ x, copy_throws x = None) xs1 →
  copy_throws y = Some e →
  Vector_copy_ctor v = Throw e [].
Proof.
  intros (xs & c & Hle & Hal_c & ->)%invariant_is_mk.
  rewrite elements_mk. intros -> Hok Hy.
  apply Vector_copy_ctor_raise; try done. by apply (allocatable_le _ c).
Qed.

(** X12. Copy-assigning to a default-constructed vector gives the vector
    the copy constructor builds. *)
Theorem Vector_copy_assign_to_default rhs :
  invariant rhs →
  Forall (λ x, copy_throws x = None) (elements rhs) →
  ∃ b, Vector_copy_ctor rhs = Ok b [] ∧
       Vector_copy_assign Vector_default rhs = Ok tt (stay b).
Proof.
  intros (ys & d & Hys & Hal_d & ->)%invariant_is_mk.
  assert (allocatable (length ys)) as Hal by (by apply (allocatable_le _ d)).
  rewrite elements_mk. intros Hok.
  exists (mk ys (length ys)). split; [by apply Vector_copy_ctor_mk|].
  pose proof (Vector_copy_assign_mk [] 0 ys d) as Hrun.
  change (mk [] 0) with (@Vector_default T) in Hrun.
  rewrite Hrun by (done || simpl; lia).
  cbn [length]. case_decide as Hlt; [done|].
  by replace (length ys) with 0 by lia.
Qed.

(** X13. The destructor of a well-formed vector destroys every element:
    the block it releases holds no live object. *)
Theorem Vector_dtor_spec v : invariant v → Vector_dtor v = Some [].
Proof.
  intros (xs & c & Hle & Hal_c & ->)%invariant_is_mk. apply Vector_dtor_mk.
Qed.

(** X14. Whatever the element type does, in every vector a program
    reaches from the constructors by calls that have defined behaviour
    (returning or throwing), [size_] does not exceed [capacity_], and the
    block has no more slots than [capacity_] says. *)
Theorem reachable_size_le_capacity v :
  reachable v →
  Size v ≤ Capacity v ∧ length (buffer_ (data_ v)) ≤ Capacity v.
Proof.
  intros [Hlen Hle]%reachable_size_within_capacity. done.
Qed.

(** X15. For an element type whose copy and move constructors never
    throw, every constructor and method keeps the class invariant, as long
    as the call has defined behaviour and the byte count of each block it
    allocates is a [size_t] value: the vector a constructor builds, and
    the vector a method leaves when called on vectors that satisfy the
    invariant, satisfies it. *)
Theorem invariant_kept_nothrow v v' :
  (∀ x : T, nothrow x) →
  invariant v →
  v' = Vector_default ∨
  (∃ size, allocatable size ∧ Vector_sized size = Some v') ∨
  (∃ l, Vector_copy_ctor v = Ok v' l) ∨
  v' = (Vector_move_ctor v).1 ∨ v' = (Vector_move_ctor v).2 ∨
  (∃ rhs, invariant rhs ∧ leaves (Vector_copy_assign v rhs) v') ∨
  (∃ rhs p rhs', invariant rhs ∧ Vector_move_assign v rhs = Ok tt (p, rhs') ∧
                 (v' = self p ∨ v' = rhs')) ∨
  (∃ other, invariant other ∧ (v' = (Swap v other).1 ∨ v' = (Swap v other).2)) ∨
  (∃ n, allocatable n ∧ leaves (Resize n v) v') ∨
  (∃ n, allocatable n ∧ leaves (Reserve n v) v') ∨
  (∃ args, allocatable (capacity_after_insert (Size v) (Capacity v)) ∧
           leaves (EmplaceBack args v) v') ∨
  leaves (PopBack v) v' ∨
  (∃ pos args, allocatable (capacity_after_insert (Size v) (Capacity v)) ∧
               leaves (Emplace pos args v) v') ∨
  (∃ pos, leaves (Erase pos v) v') →
  invariant v'.
Proof.
  intros Hnever Hinv Hcases.
  assert (invariant (@Vector_default T)) as Hdefault
    by (apply (invariant_mk [] 0); done).
  destruct Hcases as
    [-> | [(size & Hal & Hrun) | [[l Hrun] | [-> | [-> | [(rhs & Hrhs & Hrun)
    | [(rhs & p & rhs' & Hrhs & Hrun & Hv') | [(other & Hother & Hv')
    | [(n & Hal & Hrun) | [(n & Hal & Hrun) | [(args & Hal & Hrun) | [Hrun
    | [(pos & args & Hal & Hrun) | [pos Hrun]]]]]]]]]]]]]].
  - done.
  - by apply (Vector_sized_preserves size).
  - by apply (Vector_copy_ctor_preserves Hnever v v' l).
  - by rewrite Vector_move_ctor_eq.
  - by rewrite Vector_move_ctor_eq.
  - by apply (Vector_copy_assign_preserves Hnever v rhs).
  - destruct (Vector_move_assign_preserves Hnever v rhs p rhs') as [Hp Hr];
      try done.
    by destruct Hv' as [->| ->].
  - rewrite Swap_eq in Hv'. by destruct Hv' as [->| ->].
  - by apply (Resize_preserves Hnever n v).
  - by apply (Reserve_preserves Hnever n v).
  - by apply (EmplaceBack_preserves Hnever args v).
  - by apply (PopBack_preserves v).
  - by apply (Emplace_preserves Hnever pos args v).
  - by apply (Erase_preserves pos v).
Qed.

Lemma PushBack_each_within values : ∀ xs c,
  length xs + length values ≤ c → allocatable c →
  Forall (λ x, copy_throws x = None) values →
  PushBack_each values (mk xs c) = Ok tt (stay (mk (xs ++ values) c)).
Proof.
  induction values as [|y values IH]; intros xs c Hle Hal Hok.
  - by rewrite app_nil_r.
  - inversion Hok as [|? ? Hy Hrest]; subst. cbn [length] in Hle.
    cbn [PushBack_each]. unfold PushBack.
    assert (capacity_after_insert (length xs) c = c) as Hcap.
    { unfold capacity_after_insert. by rewrite decide_False by lia. }
    rewrite (EmplaceBack_mk (ByConstRef y) y)
      by (try lia; try (by rewrite Hcap); simpl; by rewrite ?Hy).
    rewrite Hcap.
    cbn [self leaked stay].
    rewrite IH by (rewrite ?length_snoc; done || lia).
    cbn [self leaked stay app]. by rewrite <- snoc_app.
Qed.

(** X16. Appending values with [PushBack] to a vector that has room for
    all of them never reallocates: the capacity is unchanged and the
    values follow the elements that were there, whatever the element
    type's constructors would do to those elements. *)
Theorem PushBack_within_capacity values v :
  invariant v →
  Size v + length values ≤ Capacity v →
  Forall (λ x, copy_throws x = None) values →
  ∃ v', PushBack_each values v = Ok tt (stay v') ∧ invariant v' ∧
        Capacity v' = Capacity v ∧ elements v' = elements v ++ values.
Proof.
  intros (xs & c & Hle & Hal_c & ->)%invariant_is_mk.
  rewrite Size_mk, Capacity_mk, elements_mk. intros Hroom Hok.
  exists (mk (xs ++ values) c).
  rewrite PushBack_each_within by done.
  rewrite Capacity_mk, elements_mk.
  split_and!; try done. apply invariant_mk; [rewrite length_app; lia|done].
Qed.

Lemma capacity_after_insert_doubles size c (j : nat) :
  c = 2 ^ j → size ≤ c → c < 2 * size →
  ∃ j', capacity_after_insert size c = 2 ^ j' ∧
        S size ≤ capacity_after_insert size c ∧
        capacity_after_insert size c < 2 * S size.
Proof.
  intros Hc Hle Hlt. unfold capacity_after_insert.
  case_decide as Hfull.
  - rewrite decide_False by lia. exists (S j).
    rewrite Nat.pow_succ_r'. lia.
  - exists j. lia.
Qed.

Lemma PushBack_each_doubling values : ∀ xs c (j : nat),
  c = 2 ^ j → length xs ≤ c → c < 2 * length xs →
  allocatable (2 * length (xs ++ values)) →
  Forall nothrow (xs ++ values) →
  ∃ j', PushBack_each values (mk xs c) = Ok tt (stay (mk (xs ++ values) (2 ^ j'))) ∧
        length (xs ++ values) ≤ 2 ^ j' ∧ 2 ^ j' < 2 * length (xs ++ values).
Proof.
  induction values as [|y values IH]; intros xs c j Hc Hle Hlt Hal Hok.
  - exists j. rewrite app_nil_r, <- Hc. by split_and!.
  - rewrite snoc_app in Hok, Hal. pose proof Hok as [Hxy _]%Forall_app.
    destruct (capacity_after_insert_doubles (length xs) c j Hc Hle Hlt)
      as (j1 & Hc1 & Hle1 & Hlt1).
    assert (allocatable (capacity_after_insert (length xs) c)) as Hal1.
    { eapply allocatable_le; [|exact Hal]. rewrite length_app, length_snoc. lia. }
    destruct (IH (xs ++ [y]) (capacity_after_insert (length xs) c) j1)
      as (j' & Hrun & Hle' & Hlt'); try done; try (rewrite length_snoc; lia).
    exists j'. rewrite snoc_app. split_and!; try done.
    cbn [PushBack_each]. rewrite PushBack_mk by done.
    cbn [self leaked stay]. by rewrite Hrun.
Qed.

(** X17. The growth policy of [EmplaceBack]: appending one or more values
    to a default-constructed vector, with constructors that do not throw
    and twice the number of values having a byte count that is a [size_t]
    value, ends in a block whose capacity is the power of two that is at
    least the number of values and less than twice that number. *)
Theorem PushBack_from_empty_capacity values :
  values ≠ [] →
  allocatable (2 * length values) →
  Forall nothrow values →
  ∃ j : nat, PushBack_each values Vector_default = Ok tt (stay (mk values (2 ^ j))) ∧
             length values ≤ 2 ^ j ∧ 2 ^ j < 2 * length values.
Proof.
  intros Hne Hal Hok. destruct values as [|y values]; [done|].
  destruct (PushBack_each_doubling values [y] 1 0) as (j & Hrun & Hle & Hlt);
    try done; try (simpl; lia).
  exists j. split_and!; try done.
  cbn [PushBack_each].
  change (@Vector_default T) with (mk (@nil T) 0).
  assert (allocatable (capacity_after_insert (length (@nil T)) 0)) as Hal1.
  { eapply allocatable_le; [|exact Hal].
    change (capacity_after_insert (length (@nil T)) 0) with 1. simpl. lia. }
  rewrite PushBack_mk
    by (by (simpl; lia) || done || by apply Forall_cons_1 in Hok as [? _]; constructor).
  change (capacity_after_insert (length (@nil T)) 0) with 1.
  cbn [self leaked stay app]. by rewrite Hrun.
Qed.

(** X18. [operator[]] on a well-formed vector: an index below the size
    gives a reference to the slot holding the element at that place of the
    element sequence; an index at or beyond the size fails the
    assertion. *)
Theorem Vector_index_spec v index :
  invariant v →
  (index < Size v →
   ∃ x, Vector_index v index = Some index ∧ read v index = Some x ∧
        elements v !! index = Some x) ∧
  (Size v ≤ index → Vector_index v index = None).
Proof.
  intros (xs & c & Hle & Hal_c & ->)%invariant_is_mk.
  rewrite Size_mk, elements_mk. split.
  - intros Hidx. destruct (lookup_lt_is_Some_2 xs index Hidx) as [x Hx].
    exists x. unfold Vector_index, RawMemory_index, read.
    cbn [mk data_ size_ buffer_ capacity_].
    rewrite !decide_True by lia.
    rewrite lookup_app_l by (by rewrite length_fmap).
    by rewrite list_lookup_fmap, Hx.
  - intros Hidx. unfold Vector_index. cbn [mk size_].
    by rewrite decide_False by lia.
Qed.

(** X19. An append followed by [PopBack], when no constructor throws and
    the byte count of the block the append needs is a [size_t] value,
    gives back the element sequence and the size; the capacity is the one
    the append left. *)
Theorem EmplaceBack_then_PopBack args x v :
  invariant v →
  allocatable (capacity_after_insert (Size v) (Capacity v)) →
  construct args = inr x →
  (Size v = Capacity v →
   relocation_ok (is_nothrow_move_constructible || negb is_nothrow_copy_constructible)
     (elements v)) →
  ∃ v1 v2, EmplaceBack args v = Ok (Size v) (stay v1) ∧
           PopBack v1 = Ok tt (stay v2) ∧ invariant v2 ∧
           elements v2 = elements v ∧ Size v2 = Size v ∧
           Capacity v2 = capacity_after_insert (Size v) (Capacity v).
Proof.
  intros (xs & c & Hle & Hal_c & ->)%invariant_is_mk.
  rewrite Size_mk, Capacity_mk, elements_mk. intros Hal Hx Hok.
  pose proof (capacity_after_insert_gt (length xs) c Hle) as Hgt.
  exists (mk (xs ++ [x]) (capacity_after_insert (length xs) c)).
  exists (mk xs (capacity_after_insert (length xs) c)).
  rewrite (EmplaceBack_mk args x) by done.
  rewrite PopBack_mk by done.
  rewrite Size_mk, Capacity_mk, elements_mk.
  split_and!; try done. apply invariant_mk; [lia|done].
Qed.

(** X20. On a vector that is not empty and whose last position is a value
    of [int], [PopBack], [Erase] at the last element and [Resize] to one
    less than the size all leave the same vector. *)
Theorem PopBack_Erase_Resize v :
  invariant v → Size v ≠ 0 → fits_int (Size v - 1) →
  ∃ v', PopBack v = Ok tt (stay v') ∧
        Erase (Size v - 1) v = Ok (Size v - 1) (stay v') ∧
        Resize (Size v - 1) v = Ok tt (stay v').
Proof.
  intros (xs & c & Hle & Hal_c & ->)%invariant_is_mk.
  rewrite Size_mk. intros Hne.
  destruct xs as [|x xs _] using rev_ind; [done|].
  rewrite length_snoc in Hle |- *. cbn [Nat.sub]. rewrite Nat.sub_0_r.
  intros Hfits.
  exists (mk xs c). split_and!.
  - by apply PopBack_mk.
  - pose proof (Erase_mk_split (length xs) xs x [] c) as Hrun.
    rewrite app_nil_r in Hrun.
    apply Hrun; [rewrite length_snoc; lia..|by apply offset_int_of].
  - rewrite Resize_shrink_mk by (rewrite ?length_snoc; lia).
    by rewrite take_app_length.
Qed.

Lemma Reserve_capacity n v :
  match Reserve n v with
  | Ok _ p | Throw _ p => Capacity v ≤ Capacity (self p)
  | Terminate | Undefined => True
  end.
Proof.
  unfold Reserve, Capacity, RawMemory_Capacity.
  case_decide as Hn; [done|].
  destruct (relocate_n _ _ _ _ _ _) as [[src dst]|e [src dst]|]; try done.
  destruct (destroy_n src 0 (size_ v)); [|done]. simpl. lia.
Qed.

(** X21. No method that works on one vector gives storage back: after
    [PopBack], [Reserve], [Resize], [EmplaceBack] (so [PushBack]),
    [Emplace] (so [Insert]) or [Erase], whether it returned or threw, the
    capacity is at least what it was. *)
Theorem capacity_never_shrinks v v' :
  leaves (PopBack v) v' ∨
  (∃ n, leaves (Reserve n v) v') ∨
  (∃ n, leaves (Resize n v) v') ∨
  (∃ args, leaves (EmplaceBack args v) v') ∨
  (∃ index args, leaves (Emplace index args v) v') ∨
  (∃ index, leaves (Erase index v) v') →
  Capacity v ≤ Capacity v'.
Proof.
  intros [Hrun|[[n Hrun]|[[n Hrun]|[[args Hrun]|[(index & args & Hrun)|[index Hrun]]]]]];
    revert Hrun.
  - unfold PopBack. repeat case_decide; try done; [by simpl; intros <-|].
    destruct (Destroy _ _); [|done]. by simpl; intros <-.
  - pose proof (Reserve_capacity n v) as Hr.
    by destruct (Reserve n v); simpl; try done; intros <-.
  - unfold Resize. case_decide.
    + pose proof (Reserve_capacity n v) as Hr.
      destruct (Reserve n v) as [[] p|e p| |]; simpl; try done; [|by intros <-].
      destruct (uninitialized_value_construct_n _ _ _); [|done].
      by simpl; intros <-.
    + destruct (destroy_n _ _ _); [|done]. by simpl; intros <-.
  - unfold EmplaceBack, Capacity, RawMemory_Capacity.
    destruct (construct args) as [e|x].
    { by case_decide; simpl; intros <-. }
    case_decide as Hfull.
    + destruct (construct_at _ _ _) as [tmp0|]; [|done].
      destruct (relocate_n _ _ _ _ _ _) as [[src dst]|e [src dst]|]; try done;
        [|by simpl; intros <-].
      destruct (destroy_n src 0 (size_ v)); [|done].
      simpl. unfold RawMemory_index. case_decide; [|done].
      simpl. intros <-. simpl. case_decide; lia.
    + destruct (construct_at _ _ _); [|done].
      unfold RawMemory_index. case_decide; [|done]. by simpl; intros <-.
  - unfold Emplace, Capacity, RawMemory_Capacity.
    case_decide as Hidx; [|done].
    destruct (construct args) as [e|x].
    { by repeat case_decide; simpl; intros <-. }
    case_decide as Hfull.
    + destruct (offset (int_of index)) as [i|]; [|done].
      destruct (construct_at _ _ _) as [tmp0|]; [|done].
      destruct (Emplace_relocate _ _ _ _) as [[src dst]|e [src dst]|]; try done;
        [|by simpl; intros <-].
      destruct (destroy_n src 0 (size_ v)); [|done].
      simpl. intros <-. simpl. case_decide; lia.
    + case_decide as Hne.
      * unfold RawMemory_index. case_decide; [|done].
        destruct (buffer_ (data_ v) !! size_ v) as [[|y]|]; try done.
        destruct (move_throws y); [by simpl; intros <-|].
        destruct (construct_at _ _ _) as [buf1|]; [|done].
        destruct (offset (int_of index)) as [i|]; [|done].
        destruct (move_backward _ _ _ _) as [buf2|]; [|done].
        case_decide; [|done].
        destruct (buf2 !! i) as [[|z]|]; try done.
        by simpl; intros <-.
      * destruct (offset (int_of index)) as [i|]; [|done].
        destruct (construct_at _ _ _); [|done]. by simpl; intros <-.
  - unfold Erase. case_decide; [|done].
    destruct (offset (int_of index)) as [i|]; [|done].
    destruct (move_range _ _ _ _) as [buf1|]; [|done].
    destruct (Destroy _ _); [|done]. by simpl; intros <-.
Qed.


(** X23. One append with [EmplaceBack] on a well-formed vector, the
    constructor of the new element not throwing and the byte count of the
    block a full vector needs being a [size_t] value: the call returns
    when the relocating constructor does not throw, and whenever it
    returns the new object is in slot [size_], the block has grown to [1]
    or to twice the size if the vector was full, the size is one more,
    and the reference returned is to that slot, the new last element. *)
Theorem EmplaceBack_spec args x v :
  invariant v →
  allocatable (capacity_after_insert (Size v) (Capacity v)) →
  construct args = inr x →
  ((Size v = Capacity v →
    relocation_ok
      (is_nothrow_move_constructible || negb is_nothrow_copy_constructible)
      (elements v)) →
   ∃ v', EmplaceBack args v = Ok (Size v) (stay v')) ∧
  (∀ r p, EmplaceBack args v = Ok r p →
          r = Size v ∧ leaked p = [] ∧ invariant (self p) ∧
          Size (self p) = Size v + 1 ∧
          Capacity (self p) = capacity_after_insert (Size v) (Capacity v) ∧
          elements (self p) = elements v ++ [x] ∧
          buffer_ (data_ (self p)) !! Size v = Some (Live x)).
Proof.
  intros (xs & c & Hle & Hal_c & ->)%invariant_is_mk.
  rewrite Size_mk, Capacity_mk, elements_mk. intros Hal Hx. split.
  - intros Hok. exists (mk (xs ++ [x]) (capacity_after_insert (length xs) c)).
    by apply EmplaceBack_mk.
  - intros r p (x' & Hx' & -> & ->)%EmplaceBack_returns; [|done..].
    assert (x' = x) as -> by congruence.
    cbn [self leaked stay].
    rewrite Size_mk, Capacity_mk, elements_mk, length_snoc.
    split_and!; try done.
    + apply invariant_mk; [|done]. rewrite length_snoc.
      by apply capacity_after_insert_gt.
    + lia.
    + apply slot_of_last.
Qed.

(** X24. [PushBack(const T&)] copy-constructs the new element and
    [PushBack(T&&)] move-constructs it.  On a well-formed vector whose
    relocation, if it is full, does not throw: when that constructor
    throws on the value, the exception reaches the caller and the vector
    is what it was; otherwise the value becomes the new last element. *)
Theorem PushBack_spec value v :
  invariant v →
  allocatable (capacity_after_insert (Size v) (Capacity v)) →
  (Size v = Capacity v →
   relocation_ok
     (is_nothrow_move_constructible || negb is_nothrow_copy_constructible)
     (elements v)) →
  let v' := mk (elements v ++ [value]) (capacity_after_insert (Size v) (Capacity v)) in
  PushBack value v
  = match copy_throws value with
    | Some e => Throw e (stay v)
    | None => Ok tt (stay v')
    end ∧
  PushBack_rvalue value v
  = match move_throws value with
    | Some e => Throw e (stay v)
    | None => Ok tt (stay v')
    end.
Proof.
  intros (xs & c & Hle & Hal_c & ->)%invariant_is_mk.
  rewrite Size_mk, Capacity_mk, elements_mk. intros Hal Hok v'.
  unfold PushBack, PushBack_rvalue. split.
  - destruct (copy_throws value) as [e|] eqn:Hcopy.
    + rewrite (EmplaceBack_construct_throws _ e); [done|]. simpl. by rewrite Hcopy.
    + rewrite (EmplaceBack_mk _ value); try done. simpl. by rewrite Hcopy.
  - destruct (move_throws value) as [e|] eqn:Hmove.
    + rewrite (EmplaceBack_construct_throws _ e); [done|]. simpl. by rewrite Hmove.
    + rewrite (EmplaceBack_mk _ value); try done. simpl. by rewrite Hmove.
Qed.

(** X25. Appending [values] one after the other with [PushBack] to a
    well-formed vector, the byte count of the largest block needed being
    a [size_t] value: the run returns when no constructor throws on the
    elements and the values, and whenever it returns the vector holds the
    original elements followed by [values], in order, in the block the
    growth policy gives. *)
Theorem PushBack_each_spec values v :
  invariant v →
  allocatable (capacity_after_appends (length values) (Size v) (Capacity v)) →
  let v' := mk (elements v ++ values)
              (capacity_after_appends (length values) (Size v) (Capacity v)) in
  invariant v' ∧ Size v' = Size v + length values ∧
  (Forall nothrow (elements v ++ values) →
   PushBack_each values v = Ok tt (stay v')) ∧
  (∀ p, PushBack_each values v = Ok tt p → p = stay v').
Proof.
  intros (xs & c & Hle & Hal_c & ->)%invariant_is_mk.
  rewrite Size_mk, Capacity_mk, elements_mk. intros Hal v'.
  split_and!.
  - apply invariant_mk; [|done]. rewrite length_app.
    by apply capacity_after_appends_le.
  - unfold v'. by rewrite Size_mk, length_app.
  - intros Hok. by apply PushBack_each_mk.
  - intros p Hrun. by apply (PushBack_each_returns values xs c).
Qed.


End Further.

(** ** Concrete runs of the further properties *)

Section FurtherRuns.

Lemma invariant_123_room : invariant (H := plain_nat) (mk [1; 2; 3] 8).
Proof. apply invariant_mk; [simpl; lia|done]. Defined.

Lemma invariant_5_fragile : invariant (H := copy_fragile_nat) (mk [5] 1).
Proof. apply invariant_mk; [simpl; lia|done]. Defined.

Lemma invariant_173 : invariant (H := copy_fragile_nat) (mk [1; 7; 3] 3).
Proof. apply invariant_mk; [simpl; lia|done]. Defined.

Lemma invariant_127 : invariant (H := copy_fragile_nat) (mk [1; 2; 7] 3).
Proof. apply invariant_mk; [simpl; lia|done]. Defined.

Lemma invariant_5_room : invariant (H := copy_fragile_nat) (mk [5] 4).
Proof. apply invariant_mk; [simpl; lia|done]. Defined.

Lemma plain_nat_nothrow : ∀ x : nat, nothrow (H := plain_nat) x.
Proof. intros x. split; reflexivity. Defined.

Lemma fits_int_small (n : nat) : n ≤ 8 → fits_int n.
Proof. unfold fits_int. lia. Defined.

Lemma allocatable_6 : allocatable (H := plain_nat) 6.
Proof. done. Defined.

Lemma Erase_spec_witness :
  invariant (H := plain_nat) (mk [1; 2; 3] 4) ∧ fits_int 1 ∧
  ∃ v', Erase (H := plain_nat) 1 (mk [1; 2; 3] 4) = Ok 1 (stay v') ∧
        elements v' = [1; 3] ∧ Capacity v' = 4.
Proof.
  assert (fits_int 1) as Hfits by (apply fits_int_small; lia).
  split_and!; [exact invariant_123|exact Hfits|].
  destruct (Erase_spec (H := plain_nat) 1 _ invariant_123)
    as (v' & Hrun & _ & _ & Hcap & Hel).
  - rewrite Size_mk. simpl. lia.
  - exact Hfits.
  - exists v'. split_and!; [exact Hrun|exact Hel|exact Hcap].
Defined.

Lemma Emplace_spec_witness :
  invariant (H := plain_nat) (mk [1; 2; 3] 3) ∧ fits_int 1 ∧
  allocatable (H := plain_nat) 6 ∧
  ∃ v', Emplace (H := plain_nat) 1 (ByCtor (inr 9)) (mk [1; 2; 3] 3) = Ok 1 (stay v') ∧
        elements v' = [1; 9; 2; 3] ∧ Capacity v' = 6.
Proof.
  assert (fits_int 1) as Hfits by (apply fits_int_small; lia).
  split_and!; [exact invariant_123_full|exact Hfits|exact allocatable_6|].
  destruct (Emplace_spec (H := plain_nat) 1 (ByCtor (inr 9)) 9 _ invariant_123_full)
    as (v' & Hrun & _ & _ & Hcap & Hel).
  - rewrite Size_mk. simpl. lia.
  - exact Hfits.
  - exact allocatable_6.
  - reflexivity.
  - left. reflexivity.
  - by apply Forall_forall.
  - exists v'. split_and!; [exact Hrun|exact Hel|exact Hcap].
Defined.

Lemma Emplace_at_end_is_EmplaceBack_witness :
  invariant (H := plain_nat) (mk [1; 2; 3] 3) ∧ fits_int 3 ∧
  allocatable (H := plain_nat) 6 ∧
  Emplace (H := plain_nat) 3 (ByCtor (inr 9)) (mk [1; 2; 3] 3)
  = EmplaceBack (H := plain_nat) (ByCtor (inr 9)) (mk [1; 2; 3] 3).
Proof.
  assert (fits_int 3) as Hfits by (apply fits_int_small; lia).
  split_and!; [exact invariant_123_full|exact Hfits|exact allocatable_6|].
  apply (Emplace_at_end_is_EmplaceBack (H := plain_nat) (ByCtor (inr 9)) 9 _
           invariant_123_full).
  - exact Hfits.
  - exact allocatable_6.
  - reflexivity.
  - left. reflexivity.
  - by apply Forall_forall.
Defined.

Lemma insert_then_erase_spec_witness :
  invariant (H := plain_nat) (mk [1; 2; 3] 3) ∧ fits_int 1 ∧
  allocatable (H := plain_nat) 6 ∧
  ∃ v', insert_then_erase (H := plain_nat) 1 9 (mk [1; 2; 3] 3) = Ok 1 (stay v') ∧
        elements v' = [1; 2; 3] ∧ Capacity v' = 6.
Proof.
  assert (fits_int 1) as Hfits by (apply fits_int_small; lia).
  split_and!; [exact invariant_123_full|exact Hfits|exact allocatable_6|].
  destruct (insert_then_erase_spec (H := plain_nat) 1 9 _ invariant_123_full)
    as (v' & Hrun & _ & Hel & Hcap).
  - rewrite Size_mk. simpl. lia.
  - exact Hfits.
  - reflexivity.
  - exact allocatable_6.
  - apply Forall_forall. intros x _. apply plain_nat_nothrow.
  - exists v'. split_and!; [exact Hrun|exact Hel|exact Hcap].
Defined.

Lemma Resize_spec_witness :
  invariant (H := plain_nat) (mk [1; 2; 3] 4) ∧
  (∃ v', Resize (H := plain_nat) 1 (mk [1; 2; 3] 4) = Ok tt (stay v') ∧
         elements v' = [1] ∧ Capacity v' = 4) ∧
  (∃ v', Resize (H := plain_nat) 5 (mk [1; 2; 3] 4) = Ok tt (stay v') ∧
         elements v' = [1; 2; 3; 0; 0] ∧ Capacity v' = 5).
Proof.
  split_and!; [exact invariant_123|..].
  - destruct (Resize_spec (H := plain_nat) 1 _ invariant_123) as [Hshrink _].
    destruct Hshrink as (v' & Hrun & _ & _ & Hcap & Hel).
    + rewrite Size_mk. simpl. lia.
    + exists v'. split_and!; [exact Hrun|exact Hel|exact Hcap].
  - destruct (Resize_spec (H := plain_nat) 5 _ invariant_123) as [_ Hgrow].
    destruct Hgrow as (v' & Hrun & _ & _ & Hcap & Hel).
    + rewrite Size_mk. simpl. lia.
    + done.
    + by apply Forall_forall.
    + exists v'. split_and!; [exact Hrun|exact Hel|exact Hcap].
Defined.


Lemma Vector_sized_spec_witness :
  allocatable (H := plain_nat) 3 ∧
  Vector_sized (H := plain_nat) 3 = Some (mk [0; 0; 0] 3) ∧
  Resize (H := plain_nat) 3 Vector_default = Ok tt (stay (mk [0; 0; 0] 3)).
Proof.
  assert (allocatable (H := plain_nat) 3) as Hal by done.
  split; [exact Hal|].
  destruct (Vector_sized_spec (H := plain_nat) 3 Hal)
    as (v & Hsized & _ & _ & _ & _ & Hresize).
  assert (v = mk [0; 0; 0] 3) as Hv.
  { assert (Some v = Some (mk [0; 0; 0] 3)) as Heq
      by (rewrite <- Hsized; reflexivity).
    by injection Heq. }
  rewrite Hv in Hresize. split; [reflexivity|exact Hresize].
Defined.

Lemma Vector_copy_assign_spec_witness :
  invariant (H := plain_nat) (mk [5] 1) ∧ invariant (H := plain_nat) (mk [1; 2; 3] 3) ∧
  ∃ v', Vector_copy_assign (H := plain_nat) (mk [5] 1) (mk [1; 2; 3] 3) = Ok tt (stay v') ∧
        elements v' = [1; 2; 3] ∧ Capacity v' = 3.
Proof.
  split_and!; [exact invariant_5|exact invariant_123_full|].
  destruct (Vector_copy_assign_spec (H := plain_nat) _ _ invariant_5 invariant_123_full)
    as (v' & Hrun & _ & Hel & _ & Hcap).
  - by apply Forall_forall.
  - exists v'. split_and!; [exact Hrun|exact Hel|exact Hcap].
Defined.

Lemma Vector_copy_assign_failure_realloc_witness :
  invariant (H := copy_fragile_nat) (mk [5] 1) ∧
  invariant (H := copy_fragile_nat) (mk [1; 7; 3] 3) ∧
  Vector_copy_assign (H := copy_fragile_nat) (mk [5] 1) (mk [1; 7; 3] 3)
  = Throw StdException (stay (mk [5] 1)).
Proof.
  split_and!; [exact invariant_5_fragile|exact invariant_173|].
  apply (Vector_copy_assign_failure_realloc (H := copy_fragile_nat) _ _ [1] 7 [3]
           StdException invariant_5_fragile invariant_173).
  - rewrite Capacity_mk, Size_mk. simpl. lia.
  - reflexivity.
  - apply Forall_forall. intros x ->%list_elem_of_singleton. reflexivity.
  - reflexivity.
Defined.

Lemma Vector_copy_assign_failure_in_place_witness :
  invariant (H := copy_fragile_nat) (mk [5] 4) ∧
  invariant (H := copy_fragile_nat) (mk [1; 2; 7] 3) ∧
  ∃ v', Vector_copy_assign (H := copy_fragile_nat) (mk [5] 4) (mk [1; 2; 7] 3)
        = Throw StdException (stay v') ∧
        elements v' = [1] ∧ Size v' = 1 ∧ Capacity v' = 4.
Proof.
  split_and!; [exact invariant_5_room|exact invariant_127|].
  destruct (Vector_copy_assign_failure_in_place (H := copy_fragile_nat) _ _
              [1] [2] 7 [] StdException invariant_5_room invariant_127)
    as (v' & Hrun & _ & Hsize & Hcap & Hel).
  - rewrite Capacity_mk, Size_mk. simpl. lia.
  - reflexivity.
  - reflexivity.
  - apply Forall_forall. intros x ->%list_elem_of_singleton. reflexivity.
  - reflexivity.
  - exists v'. split_and!; [exact Hrun|exact Hel|exact Hsize|exact Hcap].
Defined.

Lemma Vector_copy_ctor_failure_witness :
  invariant (H := copy_fragile_nat) (mk [1; 7; 3] 3) ∧
  Vector_copy_ctor (H := copy_fragile_nat) (mk [1; 7; 3] 3) = Throw StdException [].
Proof.
  split; [exact invariant_173|].
  apply (Vector_copy_ctor_failure (H := copy_fragile_nat) _ [1] 7 [3] StdException
           invariant_173).
  - reflexivity.
  - apply Forall_forall. intros x ->%list_elem_of_singleton. reflexivity.
  - reflexivity.
Defined.

Lemma Vector_copy_assign_to_default_witness :
  invariant (H := plain_nat) (mk [1; 2; 3] 4) ∧
  ∃ b, Vector_copy_ctor (H := plain_nat) (mk [1; 2; 3] 4) = Ok b [] ∧
       Vector_copy_assign (H := plain_nat) Vector_default (mk [1; 2; 3] 4)
       = Ok tt (stay b).
Proof.
  split; [exact invariant_123|].
  apply (Vector_copy_assign_to_default (H := plain_nat) _ invariant_123).
  by apply Forall_forall.
Defined.

Lemma Vector_dtor_spec_witness :
  invariant (H := plain_nat) (mk [1; 2; 3] 4) ∧ Vector_dtor (mk [1; 2; 3] 4) = Some [].
Proof.
  split; [exact invariant_123|].
  exact (Vector_dtor_spec (H := plain_nat) _ invariant_123).
Defined.

Lemma reachable_7_fragile : reachable (H := fragile_nat) (mk [7] 1).
Proof.
  apply (reach_PushBack 7 Vector_default); [apply reach_default|reflexivity].
Defined.

Lemma reachable_size_le_capacity_witness :
  reachable (H := fragile_nat) (mk [7] 1) ∧
  Size (mk [7] 1) ≤ Capacity (mk [7] 1) ∧
  length (buffer_ (data_ (mk [7] 1))) ≤ Capacity (mk [7] 1).
Proof.
  split; [exact reachable_7_fragile|].
  exact (reachable_size_le_capacity (H := fragile_nat) _ reachable_7_fragile).
Defined.

Lemma invariant_kept_nothrow_witness :
  (∀ x : nat, nothrow (H := plain_nat) x) ∧
  invariant (H := plain_nat) (mk [1; 2; 3] 4) ∧
  allocatable (H := plain_nat) 10 ∧
  leaves (Reserve (H := plain_nat) 10 (mk [1; 2; 3] 4)) (mk [1; 2; 3] 10) ∧
  invariant (H := plain_nat) (mk [1; 2; 3] 10).
Proof.
  assert (leaves (Reserve (H := plain_nat) 10 (mk [1; 2; 3] 4)) (mk [1; 2; 3] 10))
    as Hrun by reflexivity.
  split_and!; [exact plain_nat_nothrow|exact invariant_123|exact allocatable_10
              |exact Hrun|].
  apply (invariant_kept_nothrow (H := plain_nat) (mk [1; 2; 3] 4) _
           plain_nat_nothrow invariant_123).
  do 9 right. left. exists 10. split; [exact allocatable_10|exact Hrun].
Defined.

Lemma PushBack_within_capacity_witness :
  invariant (H := plain_nat) (mk [1; 2; 3] 8) ∧
  ∃ v', PushBack_each (H := plain_nat) [4; 5] (mk [1; 2; 3] 8) = Ok tt (stay v') ∧
        Capacity v' = 8 ∧ elements v' = [1; 2; 3; 4; 5].
Proof.
  split; [exact invariant_123_room|].
  destruct (PushBack_within_capacity (H := plain_nat) [4; 5] _ invariant_123_room)
    as (v' & Hrun & _ & Hcap & Hel).
  - rewrite Size_mk, Capacity_mk. simpl. lia.
  - by apply Forall_forall.
  - exists v'. split_and!; [exact Hrun|exact Hcap|exact Hel].
Defined.

Lemma PushBack_from_empty_capacity_witness :
  [1; 2; 3] ≠ [] ∧ allocatable (H := plain_nat) 6 ∧
  ∃ j : nat, PushBack_each (H := plain_nat) [1; 2; 3] Vector_default
             = Ok tt (stay (mk [1; 2; 3] (2 ^ j))) ∧
             3 ≤ 2 ^ j ∧ 2 ^ j < 6.
Proof.
  split_and!; [discriminate|exact allocatable_6|].
  apply (PushBack_from_empty_capacity (H := plain_nat) [1; 2; 3]).
  - discriminate.
  - exact allocatable_6.
  - apply Forall_forall. intros x _. apply plain_nat_nothrow.
Defined.

Lemma Vector_index_spec_witness :
  invariant (H := plain_nat) (mk [1; 2; 3] 4) ∧
  (∃ x, Vector_index (mk [1; 2; 3] 4) 1 = Some 1 ∧ read (mk [1; 2; 3] 4) 1 = Some x ∧
        [1; 2; 3] !! 1 = Some x) ∧
  Vector_index (mk [1; 2; 3] 4) 3 = None.
Proof.
  split_and!; [exact invariant_123|..].
  - destruct (Vector_index_spec (H := plain_nat) _ 1 invariant_123) as [Hin _].
    apply Hin. rewrite Size_mk. simpl. lia.
  - destruct (Vector_index_spec (H := plain_nat) _ 3 invariant_123) as [_ Hout].
    apply Hout. rewrite Size_mk. simpl. lia.
Defined.

Lemma EmplaceBack_then_PopBack_witness :
  invariant (H := plain_nat) (mk [1; 2; 3] 3) ∧ allocatable (H := plain_nat) 6 ∧
  ∃ v1 v2, EmplaceBack (H := plain_nat) (ByCtor (inr 4)) (mk [1; 2; 3] 3) = Ok 3 (stay v1) ∧
           PopBack v1 = Ok tt (stay v2) ∧
           elements v2 = [1; 2; 3] ∧ Capacity v2 = 6.
Proof.
  split_and!; [exact invariant_123_full|exact allocatable_6|].
  destruct (EmplaceBack_then_PopBack (H := plain_nat) (ByCtor (inr 4)) 4 _
              invariant_123_full)
    as (v1 & v2 & Hrun1 & Hrun2 & _ & Hel & _ & Hcap).
  - exact allocatable_6.
  - reflexivity.
  - intros _. by apply Forall_forall.
  - exists v1, v2. split_and!; [exact Hrun1|exact Hrun2|exact Hel|exact Hcap].
Defined.

Lemma PopBack_Erase_Resize_witness :
  invariant (H := plain_nat) (mk [1; 2; 3] 4) ∧ fits_int 2 ∧
  ∃ v', PopBack (mk [1; 2; 3] 4) = Ok tt (stay v') ∧
        Erase (H := plain_nat) 2 (mk [1; 2; 3] 4) = Ok 2 (stay v') ∧
        Resize (H := plain_nat) 2 (mk [1; 2; 3] 4) = Ok tt (stay v').
Proof.
  assert (fits_int 2) as Hfits by (apply fits_int_small; lia).
  split_and!; [exact invariant_123|exact Hfits|].
  apply (PopBack_Erase_Resize (H := plain_nat) _ invariant_123).
  - rewrite Size_mk. discriminate.
  - exact Hfits.
Defined.

Lemma capacity_never_shrinks_witness :
  leaves (EmplaceBack (H := plain_nat) (ByCtor (inr 4)) (mk [1; 2; 3] 3))
    (mk [1; 2; 3; 4] 6) ∧
  Capacity (mk [1; 2; 3] 3) ≤ Capacity (mk [1; 2; 3; 4] 6).
Proof.
  assert (leaves (EmplaceBack (H := plain_nat) (ByCtor (inr 4)) (mk [1; 2; 3] 3))
            (mk [1; 2; 3; 4] 6)) as Hrun by reflexivity.
  split; [exact Hrun|].
  apply (capacity_never_shrinks (H := plain_nat)).
  right. right. right. left. exists (ByCtor (inr 4)). exact Hrun.
Defined.


Lemma EmplaceBack_spec_witness :
  invariant (H := plain_nat) (mk [1; 2; 3] 3) ∧ allocatable (H := plain_nat) 6 ∧
  construct (H := plain_nat) (ByCtor (inr 4)) = inr 4 ∧
  ∃ v', EmplaceBack (H := plain_nat) (ByCtor (inr 4)) (mk [1; 2; 3] 3) = Ok 3 (stay v') ∧
        elements v' = [1; 2; 3; 4] ∧ Capacity v' = 6.
Proof.
  split_and!; [exact invariant_123_full|exact allocatable_6|reflexivity|].
  destruct (EmplaceBack_spec (H := plain_nat) (ByCtor (inr 4)) 4 _
              invariant_123_full allocatable_6 eq_refl) as [Hruns Hret].
  destruct Hruns as [v' Hrun]; [by intros _; apply Forall_forall|].
  exists v'. destruct (Hret _ _ Hrun) as (_ & _ & _ & _ & Hcap & Hel & _).
  split_and!; [exact Hrun|exact Hel|exact Hcap].
Defined.

Lemma PushBack_spec_witness :
  invariant (H := fragile_nat) (mk [1; 2] 4) ∧ allocatable (H := fragile_nat) 4 ∧
  PushBack (H := fragile_nat) 7 (mk [1; 2] 4) = Ok tt (stay (mk [1; 2; 7] 4)) ∧
  PushBack_rvalue (H := fragile_nat) 7 (mk [1; 2] 4)
  = Throw StdException (stay (mk [1; 2] 4)).
Proof.
  assert (invariant (H := fragile_nat) (mk [1; 2] 4)) as Hinv
    by (apply invariant_mk; [simpl; lia|done]).
  assert (allocatable (H := fragile_nat) 4) as Hal by done.
  split_and!; [exact Hinv|exact Hal|..].
  - destruct (PushBack_spec (H := fragile_nat) 7 _ Hinv Hal) as [Hcopy _].
    + rewrite Size_mk, Capacity_mk. simpl. lia.
    + exact Hcopy.
  - destruct (PushBack_spec (H := fragile_nat) 7 _ Hinv Hal) as [_ Hmove].
    + rewrite Size_mk, Capacity_mk. simpl. lia.
    + exact Hmove.
Defined.

Lemma PushBack_each_spec_witness :
  invariant (H := plain_nat) (mk [1; 2; 3] 4) ∧
  allocatable (H := plain_nat) (capacity_after_appends 3 3 4) ∧
  PushBack_each (H := plain_nat) [4; 5; 6] (mk [1; 2; 3] 4)
  = Ok tt (stay (mk [1; 2; 3; 4; 5; 6] 8)).
Proof.
  assert (allocatable (H := plain_nat) (capacity_after_appends 3 3 4)) as Hal by done.
  split_and!; [exact invariant_123|exact Hal|].
  destruct (PushBack_each_spec (H := plain_nat) [4; 5; 6] _ invariant_123 Hal)
    as (_ & _ & Hruns & _).
  apply Hruns. apply Forall_forall. intros x _. apply plain_nat_nothrow.
Defined.



End FurtherRuns.
